(** * broccoli-dependency-funnel: the incremental funnel of [src/index.js]

    A shallow embedding of the plugin class [BroccoliDependencyFunnel]
    (constructor, [build], [_copy], [_buildNonDepGraphChanges], [_getFSTree],
    [_copyDepGraph], [_getRollupOptions]/[resolveId]) together with the part
    of its environment that it observes: a file system, the path and string
    primitives it calls, the snapshot library and the bundler's graph walk.

    Conventions.
    - Paths and module names are [string]s; JavaScript's default [sort]
      compares UTF-16 code units, which on the ASCII names used here is the
      byte order [String.le].
    - The file system is a finite map from normalised path strings to inodes.
    - A link made by symlink-or-copy is modelled by what it shows when it is
      made.
    - JavaScript exceptions are modelled by the [Throw] outcome of a small
      state-and-exception monad: an exception keeps the assignments done
      before it, exactly as in the source. *)

From stdpp Require Import gmap strings list sorting fin_maps.

Local Open Scope Z_scope.
Local Open Scope string_scope.

(** ** String primitives used by the source *)

Module Str.

Definition slash : Ascii.ascii := Ascii.Ascii true true true true false true false false.

(** [strip_prefix p s] is [Some r] exactly when [s = p ++ r]. *)
Fixpoint strip_prefix (p s : string) : option string :=
  match p, s with
  | EmptyString, _ => Some s
  | String a p', String b s' =>
      if Ascii.eqb a b then strip_prefix p' s' else None
  | String _ _, EmptyString => None
  end.

(** [s.replace(pat, '')] with a string pattern: the first occurrence of
    [pat] in [s] is removed, nothing else. *)
Fixpoint replace_first (pat s : string) : string :=
  match strip_prefix pat s with
  | Some r => r
  | None =>
      match s with
      | EmptyString => EmptyString
      | String c s' => String c (replace_first pat s')
      end
  end.

(** [s.replace(/^\//, '')]: one leading slash is removed. *)
Definition strip_leading_slash (s : string) : string :=
  match s with
  | String c s' => if Ascii.eqb c slash then s' else s
  | EmptyString => s
  end.

(** [s.split('/')]; the empty string splits into one empty part. *)
Fixpoint split (s : string) : list string :=
  match s with
  | EmptyString => [EmptyString]
  | String c s' =>
      if Ascii.eqb c slash then EmptyString :: split s'
      else match split s' with
           | [] => [String c EmptyString]
           | p :: ps => String c p :: ps
           end
  end.

(** [parts.join('/')]. *)
Definition join (parts : list string) : string := String.concat "/" parts.

Definition starts_with_slash (s : string) : bool :=
  match s with
  | String c _ => Ascii.eqb c slash
  | EmptyString => false
  end.

Fixpoint ends_with_slash (s : string) : bool :=
  match s with
  | EmptyString => false
  | String c EmptyString => Ascii.eqb c slash
  | String _ s' => ends_with_slash s'
  end.

Definition is_empty (s : string) : bool :=
  match s with EmptyString => true | _ => false end.

End Str.

(** ** [path-posix] *)

Module Path.

(** [normalizeArray(parts, allowAboveRoot)]; [res] is kept reversed. *)
Fixpoint normalizeArray_aux (parts res : list string) (allowAboveRoot : bool)
  : list string :=
  match parts with
  | [] => rev res
  | p :: parts' =>
      if Str.is_empty p || String.eqb p "." then
        normalizeArray_aux parts' res allowAboveRoot
      else if String.eqb p ".." then
        match res with
        | last :: res' =>
            if String.eqb last ".." then
              normalizeArray_aux parts'
                (if allowAboveRoot then ".." :: res else res) allowAboveRoot
            else normalizeArray_aux parts' res' allowAboveRoot
        | [] =>
            normalizeArray_aux parts'
              (if allowAboveRoot then [".."] else []) allowAboveRoot
        end
      else normalizeArray_aux parts' (p :: res) allowAboveRoot
  end.

Definition normalizeArray (parts : list string) (allowAboveRoot : bool) :=
  normalizeArray_aux parts [] allowAboveRoot.

Definition isAbsolute (p : string) : bool := Str.starts_with_slash p.

Definition normalize (p : string) : string :=
  let abs := isAbsolute p in
  let trailingSlash := Str.ends_with_slash p in
  let p1 := Str.join (normalizeArray (Str.split p) (negb abs)) in
  let p2 := if Str.is_empty p1 && negb abs then "." else p1 in
  let p3 := if negb (Str.is_empty p2) && trailingSlash then p2 +:+ "/" else p2 in
  (if abs then "/" else "") +:+ p3.

(** [path.join(a, b)]: empty segments are skipped, then [normalize]. *)
Definition join (a b : string) : string :=
  let p := if Str.is_empty a then b
           else if Str.is_empty b then a
           else a +:+ "/" +:+ b in
  normalize p.

(** The prefixes of [p] that end just before one of its slashes, shortest
    first: [slash_prefixes "out/utils/foo.js" = ["out"; "out/utils"]]. *)
Fixpoint slash_prefixes (p : string) : list string :=
  match p with
  | EmptyString => []
  | String c p' =>
      let rest := String c <$> slash_prefixes p' in
      if Ascii.eqb c Str.slash then EmptyString :: rest else rest
  end.

(** The proper ancestors of a normalised path, outermost first; the root
    directory [/] is not listed. *)
Definition ancestors (p : string) : list string :=
  filter (λ a, Str.is_empty a = false ∧ Str.ends_with_slash a = false)
    (slash_prefixes p).

(** [path.dirname(p)] of a normalised path. *)
Definition dirname (p : string) : string :=
  match last (slash_prefixes p) with
  | None => "."
  | Some EmptyString => "/"
  | Some d => d
  end.

End Path.

(** ** Outcomes and the state-and-exception monad

    A JavaScript function that mutates [this] or the disk and may throw is a
    function from the state to an outcome and the state it leaves behind. *)

Inductive outcome (A : Type) : Type :=
| Ret (a : A)
| Throw (msg : string).
Arguments Ret {A} a.
Arguments Throw {A} msg.

Definition M (S A : Type) : Type := S → outcome A * S.

Definition ret {S A} (a : A) : M S A := λ s, (Ret a, s).
Definition throw {S A} (msg : string) : M S A := λ s, (Throw msg, s).
Definition bind {S A B} (c : M S A) (k : A → M S B) : M S B :=
  λ s, match c s with
       | (Ret a, s') => k a s'
       | (Throw msg, s') => (Throw msg, s')
       end.
Definition get {S} : M S S := λ s, (Ret s, s).
Definition modify {S} (f : S → S) : M S unit := λ s, (Ret tt, f s).

Declare Scope js_scope.
Delimit Scope js_scope with js.
Notation "'let!' x := c1 'in' c2" := (bind c1 (λ x, c2))
  (at level 10, x name, c1 at level 100, c2 at level 200) : js_scope.
Notation "c1 ;; c2" := (bind c1 (λ _, c2))
  (at level 100, c2 at level 200, right associativity) : js_scope.

Definition is_ret {A} (o : outcome A) : bool :=
  match o with Ret _ => true | Throw _ => false end.

(** ** The file system *)

(** What [fs.statSync] reports and the snapshot library compares. The kind of
    an inode is in the format bits of [st_mode], as in POSIX. *)
Record Stats := { st_mode : Z; st_size : Z; st_mtime : Z }.

(** An inode: its stat record and, for a module file, the specifiers of its
    import declarations in source order. The funnel never looks at any other
    part of a file's text; the bundler's parser is what extracts them. *)
Record inode := { stats : Stats; imports : list string }.

(** The disk and the clock. Keys are normalised paths without a trailing
    slash; directories are entries of their own. *)
Record World := { files : gmap string inode; now : Z }.

Module FS.

Definition S_IFMT : Z := 61440.   (* 0o170000 *)
Definition S_IFDIR : Z := 16384.  (* 0o040000 *)
Definition S_IFREG : Z := 32768.  (* 0o100000 *)

Definition isDirectory (st : Stats) : bool :=
  Z.eqb (Z.land (st_mode st) S_IFMT) S_IFDIR.
Definition isFile (st : Stats) : bool :=
  Z.eqb (Z.land (st_mode st) S_IFMT) S_IFREG.
(** Owner-read permission, bit 0o400. *)
Definition readable (st : Stats) : bool := Z.testbit (st_mode st) 8.

Definition set_files (f : gmap string inode → gmap string inode) (w : World)
  : World := {| files := f (files w); now := now w |}.

Definition stat (w : World) (p : string) : option Stats :=
  stats <$> files w !! p.

(** Is there something at [p] that is not a directory? *)
Definition blocked (w : World) (p : string) : bool :=
  match files w !! p with
  | Some i => negb (isDirectory (stats i))
  | None => false
  end.

(** [existsSync(p)] of the exists-sync package: it answers [false] when
    [lstat] fails with ENOENT and [true] otherwise, so a path that runs
    through something that is not a directory (ENOTDIR) is reported to
    exist. *)
Definition existsSync (w : World) (p : string) : bool :=
  match files w !! p with
  | Some _ => true
  | None => existsb (blocked w) (Path.ancestors p)
  end.

(** [relative root k] is [Some rel] when [k] lies strictly below [root],
    that is [k = root ++ "/" ++ rel] with [rel] not empty. *)
Definition relative (root k : string) : option string :=
  match Str.strip_prefix (root +:+ "/") k with
  | Some rel => if Str.is_empty rel then None else Some rel
  | None => None
  end.

(** Every path strictly below [root], relative to it. *)
Definition descendants (w : World) (root : string) : list string :=
  omap (relative root) (map_to_list (files w)).*1.

(** The same, without the directories. *)
Definition files_below (w : World) (root : string) : list string :=
  omap (λ kv : string * inode,
          if isDirectory (stats kv.2) then None else relative root kv.1)
    (map_to_list (files w)).

Definition has_slash (s : string) : bool :=
  match Str.split s with [_] => false | _ => true end.

(** [fs.readdirSync(dir)]: the names directly inside [dir]; throws when
    [dir] is not a directory. *)
Definition readdirSync (w : World) (dir : string) : outcome (list string) :=
  match stat w dir with
  | Some st =>
      if isDirectory st
      then Ret (filter (λ n, has_slash n = false) (descendants w dir))
      else Throw "ENOTDIR"
  | None => Throw "ENOENT"
  end.

(** [rimraf.sync(p)]: [p] and everything below it is removed. *)
Definition rimraf (p : string) (w : World) : World :=
  set_files
    (filter (λ kv, kv.1 ≠ p ∧ Str.strip_prefix (p +:+ "/") kv.1 = None)) w.

Definition dir_inode (w : World) : inode :=
  {| stats := {| st_mode := 16877; st_size := 0; st_mtime := now w |};
     imports := [] |}.

(** Is [p] a directory? The working directory and the root always are. *)
Definition isDir (w : World) (p : string) : bool :=
  String.eqb p "." || String.eqb p "/" ||
  match files w !! p with
  | Some i => isDirectory (stats i)
  | None => false
  end.

(** [mkdirp]: the directories [ps], outermost first, are created where they
    are missing; something else in the way is an error. *)
Fixpoint mkdirs (ps : list string) : M World unit :=
  match ps with
  | [] => ret tt
  | p :: ps' =>
      λ w, match files w !! p with
           | Some i =>
               if isDirectory (stats i) then mkdirs ps' w
               else (Throw "ENOTDIR", w)
           | None => mkdirs ps' (set_files <[p := dir_inode w]> w)
           end
  end.

(** Everything strictly below [src], as pairs of the path relative to [src]
    (with its leading slash) and the inode. *)
Definition below (src : string) (fs : gmap string inode)
  : list (string * inode) :=
  omap (λ kv : string * inode,
          match Str.strip_prefix (src +:+ "/") kv.1 with
          | Some rel => Some ("/" +:+ rel, kv.2)
          | None => None
          end) (map_to_list fs).

(** What is seen at and below [dst] once [dst] is a link to [src]. *)
Definition graft (src dst : string) (i : inode) (fs : gmap string inode)
  : gmap string inode :=
  foldr (λ e m, <[dst +:+ e.1 := e.2]> m) (<[dst := i]> fs) (below src fs).

(** [symlinkOrCopy.sync(src, dst)]: [src] must exist, [dst] must not, and the
    directory of [dst] must be there. A link to a directory shows everything
    below it. The link is modelled by what it shows when it is made. *)
Definition symlinkOrCopySync (src dst : string) : M World unit :=
  λ w, match files w !! src with
       | None => (Throw "ENOENT", w)
       | Some i =>
           match files w !! dst with
           | Some _ => (Throw "EEXIST", w)
           | None =>
               if isDir w (Path.dirname dst)
               then (Ret tt, set_files (graft src dst i) w)
               else (Throw "ENOENT", w)
           end
       end.

Definition unlinkSync (p : string) : M World unit :=
  λ w, match stat w p with
       | Some st =>
           if isDirectory st then (Throw "EISDIR", w)
           else (Ret tt, set_files (delete p) w)
       | None => (Throw "ENOENT", w)
       end.

Definition rmdirSync (p : string) : M World unit :=
  λ w, match stat w p with
       | Some st =>
           if negb (isDirectory st) then (Throw "ENOTDIR", w)
           else match descendants w p with
                | [] => (Ret tt, set_files (delete p) w)
                | _ :: _ => (Throw "ENOTEMPTY", w)
                end
       | None => (Throw "ENOENT", w)
       end.

Definition mkdirSync (p : string) : M World unit :=
  λ w, match files w !! p with
       | Some _ => (Throw "EEXIST", w)
       | None => (Ret tt, set_files <[p := dir_inode w]> w)
       end.

End FS.

(** ** The repository's own helpers, [src/utils/] *)

(** Modelled from the spec: [utils/exists-stat.js] is not among the sources.
    Section 4.1: a path is stat'ed under the root, and a path whose target no
    longer exists yields nothing instead of an error. *)
Definition existsStat (w : World) (absolutePath : string) : option Stats :=
  FS.stat w absolutePath.

(** Modelled from the spec: [utils/filter-directory.js] is not among the
    sources. Section 4.2: the tree below [root] is walked recursively and the
    relative paths for which the predicate holds are listed, the root itself
    never included. Section 4.2 speaks of files and directories; since
    [_copy] of a directory brings everything below it (section 4.4), a listed
    directory would bring the graph's modules into the exclude output, against
    the exclude scenario of section 8 ([utils/herp.js] without [utils/foo.js])
    and the test suite of the source. So the directories are walked and the
    files are listed. The only caller passes the empty [prefix] and sorts the
    result, so the order of the listing is immaterial; a non-empty prefix is
    put in front of each relative path. *)
Definition filterDirectory (w : World) (root prefix : string)
    (callback : string → bool) : list string :=
  filter (λ p, callback p = true)
    ((λ rel, if Str.is_empty prefix then rel else prefix +:+ "/" +:+ rel)
       <$> FS.files_below w root).

(** Modelled from the spec: [utils/copy-file.js] is not among the sources.
    Sections 2 and 7: one path is copied forward, and an I/O failure aborts
    the build. Section 4.4: [_copy] of the names directly inside the root
    copies the entire root, so a directory comes with everything below it.
    Section 8: the directories above the destination are created when they
    are missing ([utils/] appears in the include output although only files
    are copied). This is the link-or-copy helper of the broccoli plugins: a
    link is attempted; if that fails, the directory of the destination is
    created, a file in the way is removed, and the link is attempted once
    more. A missing source or a directory in the way makes it throw. *)
Definition copyFile (src dst : string) : M World unit :=
  λ w, match FS.symlinkOrCopySync src dst w with
       | (Ret tt, w') => (Ret tt, w')
       | (Throw _, _) =>
           match FS.mkdirs (Path.ancestors dst) w with
           | (Throw msg, w1) => (Throw msg, w1)
           | (Ret tt, w1) =>
               let w2 := (FS.unlinkSync dst w1).2 in
               FS.symlinkOrCopySync src dst w2
           end
       end.

(** ** [amd-name-resolver]: [moduleResolve(child, name)]

    A specifier that does not start with a dot is returned as it is; a
    relative one is resolved against the directory of the importing module,
    and climbing above the root throws. *)

Module Amd.

Definition starts_with_dot (s : string) : bool :=
  match s with
  | String c _ => Ascii.eqb c (Ascii.Ascii false true true true false true false false)
  | EmptyString => false
  end.

(** The loop over the parts of [child]; [parentBase] is kept reversed. *)
Fixpoint resolve_parts (parts parentBase : list string)
  : outcome (list string) :=
  match parts with
  | [] => Ret (rev parentBase)
  | part :: parts' =>
      if String.eqb part ".." then
        match parentBase with
        | [] => Throw "Cannot access parent module of root"
        | _ :: parentBase' => resolve_parts parts' parentBase'
        end
      else if String.eqb part "." then resolve_parts parts' parentBase
      else resolve_parts parts' (part :: parentBase)
  end.

Definition moduleResolve (child name : string) : outcome string :=
  if negb (starts_with_dot child) then Ret child
  else
    let parts := Str.split child in
    let nameParts := Str.split name in
    (* nameParts.slice(0, -1), reversed *)
    let parentBase := tail (rev nameParts) in
    match resolve_parts parts parentBase with
    | Ret ps => Ret (Str.join ps)
    | Throw msg => Throw msg
    end.

End Amd.

(** ** [fs-tree-diff]: entries, snapshots and patches

    The library is used through [Entry.fromStat], [FSTree.fromEntries],
    [calculatePatch] and [FSTree.applyPatch]. A snapshot is the list of its
    entries, in increasing order of their paths; two entries of the same path are equal when
    mode (kind and permission bits), size and modification time all agree
    (section 4.1). The patch lists the removals, last path first, and then the
    additions and updates, first path first. *)

Module FSTree.

Record Entry := {
  relativePath : string;
  e_mode : Z;
  e_size : Z;
  e_mtime : Z
}.

Definition fromStat (relativePath : string) (st : Stats) : Entry :=
  {| relativePath := relativePath; e_mode := st_mode st;
     e_size := st_size st; e_mtime := st_mtime st |}.

Record t := { entries : list Entry }.

(** [previous < current] for every two neighbours. *)
Fixpoint strictly_increasing (paths : list string) : bool :=
  match paths with
  | [] => true
  | previous :: rest =>
      match rest with
      | [] => true
      | current :: _ => String.ltb previous current && strictly_increasing rest
      end
  end.

(** [FSTree.fromEntries(entries)] validates its input: the paths must be
    sorted and without duplicates, or it throws. The text of the error, which
    names the two offending entries, is abbreviated. *)
Definition fromEntries (es : list Entry) : outcome t :=
  if strictly_increasing (relativePath <$> es) then Ret {| entries := es |}
  else Throw "Ensure your input is sorted and has no duplicate paths".

Inductive operation := unlink | rmdir | mkdir | create | change.

Definition op : Type := operation * string * Entry.

Definition isDirectory (e : Entry) : bool :=
  Z.eqb (Z.land (e_mode e) FS.S_IFMT) FS.S_IFDIR.

Definition isEqual (a b : Entry) : bool :=
  Z.eqb (e_mode a) (e_mode b) && Z.eqb (e_size a) (e_size b)
  && Z.eqb (e_mtime a) (e_mtime b).

Definition removeOp (e : Entry) : op :=
  (if isDirectory e then rmdir else unlink, relativePath e, e).
Definition addOp (e : Entry) : op :=
  (if isDirectory e then mkdir else create, relativePath e, e).
Definition updateOp (e : Entry) : op := (change, relativePath e, e).

(** The simultaneous walk over both entry lists: removals and additions. *)
Fixpoint walk (ours : list Entry) : list Entry → list op * list op :=
  fix walk_theirs (theirs : list Entry) : list op * list op :=
    match ours, theirs with
    | [], _ => ([], addOp <$> theirs)
    | _, [] => (removeOp <$> ours, [])
    | x :: ours', y :: theirs' =>
        if String.ltb (relativePath x) (relativePath y) then
          let '(rs, adds) := walk ours' theirs in (removeOp x :: rs, adds)
        else if String.ltb (relativePath y) (relativePath x) then
          let '(rs, adds) := walk_theirs theirs' in (rs, addOp y :: adds)
        else
          let '(rs, adds) := walk ours' theirs' in
          (rs, if isEqual x y then adds else updateOp y :: adds)
    end.

Definition calculatePatch (ours theirs : t) : list op :=
  let '(rs, adds) := walk (entries ours) (entries theirs) in
  rev rs ++ adds.

(** [symlinkOrCopy] of an entry that is not a directory: the source must
    exist, the destination must not. *)
Definition symlinkOrCopySync (src dst : string) : M World unit :=
  λ w, match files w !! src with
       | None => (Throw "ENOENT", w)
       | Some i =>
           match files w !! dst with
           | Some _ => (Throw "EEXIST", w)
           | None => (Ret tt, FS.set_files <[dst := i]> w)
           end
       end.

Definition applyOperation (input output : string) (o : op) : M World unit :=
  let '(name, relativePath, _) := o in
  let inputPath := Path.join input relativePath in
  let outputPath := Path.join output relativePath in
  match name with
  | unlink => FS.unlinkSync outputPath
  | rmdir => FS.rmdirSync outputPath
  | mkdir => FS.mkdirSync outputPath
  | create => symlinkOrCopySync inputPath outputPath
  | change =>
      (FS.unlinkSync outputPath ;; symlinkOrCopySync inputPath outputPath)%js
  end.

Fixpoint applyPatch (input output : string) (patch : list op)
  : M World unit :=
  match patch with
  | [] => ret tt
  | o :: patch' =>
      (applyOperation input output o ;; applyPatch input output patch')%js
  end.

End FSTree.

(** ** The bundler, as the funnel uses it

    [rollup(options)] is consumed for its graph walk alone. The walk is the
    bundler's, not the repository's; it is written after section 4.3 of the
    specification: the entry is resolved first (with no importer); every
    import of every loaded module is resolved through the plugin's
    [resolveId] hook, unless the specifier is listed in [external], in which
    case the hook is not consulted at all; a resolved module is loaded and
    walked once; an unresolved specifier is external and is not walked.
    The hook itself and the array it pushes to are the source's. *)

Module Rollup.

(** The plugin hook: it reads the importee and the importer and may push
    to the [modules] array captured by its closure. *)
Definition hook : Type := string → option string → M (list string) (option string).

Record options := {
  entry : string;
  external : list string;
  resolveId : hook
}.

(** The state of a walk: the captured [modules] array, the ids loaded so
    far, and the record of every import handed to the hook (specifier and
    importer). The record is only observed by theorems. *)
Record walk := {
  modules : list string;
  loaded : list string;
  calls : list (string * string)
}.

Inductive result :=
| Finished (st : walk)
| Rejected (msg : string)
| OutOfFuel.

Definition isExternal (o : options) (id : string) : bool :=
  bool_decide (id ∈ external o).

(** Loading reads a readable regular file and parses its imports. *)
Definition load (w : World) (id : string) : option (list string) :=
  match files w !! id with
  | Some i =>
      if FS.isFile (stats i) && FS.readable (stats i)
      then Some (imports i) else None
  | None => None
  end.

Fixpoint fetchAllDependencies (o : options)
    (fetchModule : string → walk → result)
    (id : string) (sources : list string) (st : walk) : result :=
  match sources with
  | [] => Finished st
  | source :: rest =>
      if isExternal o source then
        fetchAllDependencies o fetchModule id rest st
      else
        match resolveId o source (Some id) (modules st) with
        | (Throw msg, _) => Rejected msg
        | (Ret resolved, ms) =>
            let st' := {| modules := ms; loaded := loaded st;
                          calls := (calls st ++ [(source, id)])%list |} in
            match resolved with
            | None => fetchAllDependencies o fetchModule id rest st'
            | Some resolvedId =>
                match fetchModule resolvedId st' with
                | Finished st'' =>
                    fetchAllDependencies o fetchModule id rest st''
                | r => r
                end
            end
        end
  end.

Fixpoint fetchModule (w : World) (o : options) (fuel : nat)
    (id : string) (st : walk) : result :=
  match fuel with
  | O => OutOfFuel
  | S fuel' =>
      if bool_decide (id ∈ loaded st) then Finished st
      else
        match load w id with
        | None => Rejected "Could not load module"
        | Some sources =>
            fetchAllDependencies o (fetchModule w o fuel') id sources
              {| modules := modules st; loaded := id :: loaded st;
                 calls := calls st |}
        end
  end.

(** Every loaded id is a path of the disk, and a module is loaded once, so
    one more unit of fuel than there are paths is always enough
    ([fetchModule_fuel] below). *)
Definition run (w : World) (o : options) (modules0 : list string) : result :=
  match resolveId o (entry o) None modules0 with
  | (Throw msg, _) => Rejected msg
  | (Ret None, _) => Rejected "Could not resolve entry"
  | (Ret (Some id), ms) =>
      fetchModule w o (S (size (files w))) id
        {| modules := ms; loaded := []; calls := [] |}
  end.

(** [rollup(options)] as a promise: fulfilled with the final content of the
    captured array, or rejected. *)
Definition rollup (w : World) (o : options) (modules0 : list string)
  : outcome (list string) :=
  match run w o modules0 with
  | Finished st => Ret (modules st)
  | Rejected msg => Throw msg
  | OutOfFuel => Throw "walk did not finish"
  end.

End Rollup.

(** ** The plugin class *)

(** A value of the [include] or [exclude] option, as far as the constructor
    looks at it: it applies [!!] (ToBoolean) and [^] (ToInt32) and nothing
    else. Every falsy value ([undefined], [null], [false], [0], [NaN], the
    empty string) has ToInt32 0; a truthy value is kept with its ToInt32. *)
Inductive js_value :=
| Falsy
| Truthy (int32 : Z).

Definition js_undefined : js_value := Falsy.
Definition js_false : js_value := Falsy.
Definition js_true : js_value := Truthy 1.
(** An integer: ToInt32 wraps it into the range of 32-bit signed integers. *)
Definition js_number (n : Z) : js_value :=
  if Z.eqb n 0 then Falsy
  else Truthy ((n + 2147483648) mod 4294967296 - 2147483648).

Record Options := {
  opt_include : js_value;
  opt_exclude : js_value;
  opt_entry : string;
  opt_external : option (list string)
}.

(** The instance. [inputPath] and [outputPath] are [this.inputPaths[0]] and
    [this.outputPath], which the host framework provides; the four cached
    fields are [undefined] ([None]) until assigned. *)
Record Funnel := {
  inputPath : string;
  outputPath : string;
  include : bool;
  entry : string;
  external : option (list string);
  _depGraph : option (list string);
  _depGraphTree : option FSTree.t;
  _nonDepGraph : option (list string);
  _nonDepGraphTree : option FSTree.t
}.

(** The state a method runs in: [this] and the disk. *)
Record state := { self : Funnel; world : World }.

Definition set_self (f : Funnel → Funnel) (s : state) : state :=
  {| self := f (self s); world := world s |}.

(** A disk operation run from a method. *)
Definition onWorld {A} (c : M World A) : M state A :=
  λ s, let '(o, w') := c (world s) in (o, {| self := self s; world := w' |}).

(** [ToInt32(v)], as the bitwise [^] applies it to its operands. *)
Definition toInt32 (v : js_value) : Z :=
  match v with
  | Falsy => 0
  | Truthy n => n
  end.

(** [!!v]. *)
Definition truthy (v : js_value) : bool :=
  match v with
  | Falsy => false
  | Truthy _ => true
  end.

Definition constructor (inputPath outputPath : string) (options : Options)
  : outcome Funnel :=
  if Z.eqb (Z.lxor (toInt32 (opt_include options)) (toInt32 (opt_exclude options))) 0
  then Throw "Must specify exactly one of `include` or `exclude`."
  else Ret {| inputPath := inputPath;
              outputPath := outputPath;
              include := truthy (opt_include options);
              entry := opt_entry options;
              external := opt_external options;
              _depGraph := None;
              _depGraphTree := None;
              _nonDepGraph := None;
              _nonDepGraphTree := None |}.

(** [Array.prototype.sort()] on strings. *)
Definition sort (l : list string) : list string := merge_sort String.le l.

(** [_copy(inodes)] *)
Fixpoint copy_loop (inputPath outputPath : string) (inodes : list string)
  : M World unit :=
  match inodes with
  | [] => ret tt
  | module :: rest =>
      (copyFile (Path.join inputPath module) (Path.join outputPath module) ;;
       copy_loop inputPath outputPath rest)%js
  end.

Definition _copy (inodes : list string) : M state unit :=
  λ s, onWorld (copy_loop (inputPath (self s)) (outputPath (self s)) inodes) s.

(** [_getFSTree(paths)] *)
Definition _getFSTree (this : Funnel) (w : World) (paths : list string)
  : outcome FSTree.t :=
  let entries :=
    omap (λ entryPath,
            let absolutePath := Path.join (inputPath this) entryPath in
            match existsStat w absolutePath with
            | None => None
            | Some stat => Some (FSTree.fromStat entryPath stat)
            end) paths in
  FSTree.fromEntries entries.

(** [patch.length !== 0] *)
Definition nonEmpty {A} (l : list A) : bool :=
  match l with [] => false | _ :: _ => true end.

(** [_buildNonDepGraphChanges()]. Reading a property of [undefined] throws a
    [TypeError]. *)
Definition _buildNonDepGraphChanges : M state unit :=
  λ s,
    let this := self s in
    match _nonDepGraph this with
    | None => (Throw "TypeError", s)
    | Some nonDepGraph =>
        match _getFSTree this (world s) nonDepGraph with
        | Throw msg => (Throw msg, s)
        | Ret incomingNonDepGraphTree =>
            match _nonDepGraphTree this with
            | None => (Throw "TypeError", s)
            | Some nonDepGraphTree =>
                let nonDepGraphPatch :=
                  FSTree.calculatePatch nonDepGraphTree
                    incomingNonDepGraphTree in
                let hasNonDepGraphChanges := nonEmpty nonDepGraphPatch in
                if negb hasNonDepGraphChanges then (Ret tt, s)
                else if negb (include this) then
                  onWorld (FSTree.applyPatch (inputPath this)
                             (outputPath this) nonDepGraphPatch) s
                else (Ret tt, s)
            end
        end
    end.

(** The [resolveId] hook of [_getRollupOptions]. [!importer] holds for
    [undefined] and for the empty string. *)
Definition resolveId (w : World) (inputPath : string) : Rollup.hook :=
  λ importee importer,
    match importer with
    | None | Some EmptyString =>
        let moduleName := Str.replace_first inputPath importee in
        (modify (λ modules, (modules ++ [moduleName])%list) ;;
         ret (Some (Path.join inputPath importee)))%js
    | Some importer =>
        match Amd.moduleResolve importee importer with
        | Throw msg => throw msg
        | Ret resolved =>
            let moduleName :=
              Str.strip_leading_slash (Str.replace_first inputPath resolved) in
            let modulePath := Path.join inputPath (moduleName +:+ ".js") in
            if FS.existsSync w modulePath then
              (modify (λ modules, (modules ++ [moduleName +:+ ".js"])%list) ;;
               ret (Some modulePath))%js
            else ret None
        end
    end.

(** [_getRollupOptions(modules)]; the array is threaded through the hook. *)
Definition _getRollupOptions (this : Funnel) (w : World) : Rollup.options :=
  {| Rollup.entry := entry this;
     Rollup.external := default [] (external this);
     Rollup.resolveId := resolveId w (inputPath this) |}.

(** [this._getFSTree(paths)] called from a method. *)
Definition snapshot (paths : list string) : M state FSTree.t :=
  λ s, (_getFSTree (self s) (world s) paths, s).

(** [_copyDepGraph(modules)] *)
Definition _copyDepGraph (modules : list string) : M state unit :=
  (let! s0 := get in
   let depGraph := sort modules in
   let nonDepGraph :=
     sort (filterDirectory (world s0) (inputPath (self s0)) ""
             (λ module, bool_decide (module ∉ modules))) in
   modify (set_self (λ this,
     {| inputPath := inputPath this; outputPath := outputPath this;
        include := include this; entry := entry this;
        external := external this;
        _depGraph := Some depGraph;
        _depGraphTree := _depGraphTree this;
        _nonDepGraph := Some nonDepGraph;
        _nonDepGraphTree := _nonDepGraphTree this |})) ;;
   onWorld (modify (FS.rimraf (outputPath (self s0)))) ;;
   let toCopy := if include (self s0) then depGraph else nonDepGraph in
   _copy toCopy ;;
   let! depGraphTree := snapshot depGraph in
   modify (set_self (λ this,
     {| inputPath := inputPath this; outputPath := outputPath this;
        include := include this; entry := entry this;
        external := external this;
        _depGraph := _depGraph this;
        _depGraphTree := Some depGraphTree;
        _nonDepGraph := _nonDepGraph this;
        _nonDepGraphTree := _nonDepGraphTree this |})) ;;
   let! nonDepGraphTree := snapshot nonDepGraph in
   modify (set_self (λ this,
     {| inputPath := inputPath this; outputPath := outputPath this;
        include := include this; entry := entry this;
        external := external this;
        _depGraph := _depGraph this;
        _depGraphTree := _depGraphTree this;
        _nonDepGraph := _nonDepGraph this;
        _nonDepGraphTree := Some nonDepGraphTree |})))%js.

(** The first half of [build()]: is there a cached graph whose files are
    unchanged? [Ret true] is the fast path. *)
Definition depGraphUnchanged (s : state) : outcome bool :=
  let this := self s in
  match _depGraph this with
  | Some depGraph =>
      match _getFSTree this (world s) depGraph with
      | Throw msg => Throw msg
      | Ret incomingDepGraphTree =>
          match _depGraphTree this with
          | None => Throw "TypeError"
          | Some depGraphTree =>
              let depGraphPatch :=
                FSTree.calculatePatch depGraphTree incomingDepGraphTree in
              let hasDepGraphChanges := nonEmpty depGraphPatch in
              Ret (negb hasDepGraphChanges)
          end
      end
  | None => Ret false
  end.

(** [build()] *)
Definition build : M state unit :=
  λ s,
    let this := self s in
    match depGraphUnchanged s with
    | Throw msg => (Throw msg, s)
    | Ret true => _buildNonDepGraphChanges s
    | Ret false =>
        let entryExists :=
          FS.existsSync (world s) (Path.join (inputPath this) (entry this)) in
        if negb entryExists then
          if negb (include this) then
            match FS.readdirSync (world s) (inputPath this) with
            | Throw msg => (Throw msg, s)
            | Ret modules => _copy modules s
            end
          else (Ret tt, s)
        else
          let rollupOptions := _getRollupOptions this (world s) in
          match Rollup.rollup (world s) rollupOptions [] with
          | Throw msg => (Throw msg, s)
          | Ret modules => _copyDepGraph modules s
          end
    end.

(** ** The fixture of the test suite

    [tmp/in] holds [routes.js] (importing the external [ember-engines/routes]
    and [utils/foo]), [utils/foo.js] (importing [./derp]), [utils/derp.js],
    [utils/herp.js] and [engine.js] (importing [./utils/herp]). *)

Module Fixture.

Definition file (mtime : Z) (imps : list string) : inode :=
  {| stats := {| st_mode := 33188; st_size := 64; st_mtime := mtime |};
     imports := imps |}.

Definition dir (mtime : Z) : inode :=
  {| stats := {| st_mode := 16877; st_size := 0; st_mtime := mtime |};
     imports := [] |}.

Definition disk : gmap string inode :=
  list_to_map
    [("tmp", dir 1); ("tmp/in", dir 1); ("tmp/out", dir 1);
     ("tmp/in/routes.js", file 1 ["ember-engines/routes"; "utils/foo"]);
     ("tmp/in/utils", dir 1);
     ("tmp/in/utils/foo.js", file 1 ["./derp"]);
     ("tmp/in/utils/derp.js", file 1 []);
     ("tmp/in/utils/herp.js", file 1 []);
     ("tmp/in/engine.js", file 1 ["./utils/herp"])].

Definition world0 : World := {| files := disk; now := 2 |}.

(** [new BroccoliDependencyFunnel(input, { include | exclude: true,
    entry: 'routes.js', external: ['ember-engines/routes'] })],
    already past the constructor's check. *)
Definition funnel (inc : bool) : Funnel :=
  {| inputPath := "tmp/in"; outputPath := "tmp/out";
     include := inc; entry := "routes.js";
     external := Some ["ember-engines/routes"];
     _depGraph := None; _depGraphTree := None;
     _nonDepGraph := None; _nonDepGraphTree := None |}.

Definition start (inc : bool) : state :=
  {| self := funnel inc; world := world0 |}.

(** The state after the first build. *)
Definition built (inc : bool) : state := (build (start inc)).2.

(** The environment between two builds: the clock advances, and a file is
    written or removed. *)
Definition tick (s : state) : state :=
  {| self := self s;
     world := {| files := files (world s); now := now (world s) + 1 |} |}.

Definition write (p : string) (i : inode) (s : state) : state :=
  {| self := self s; world := FS.set_files <[p := i]> (world s) |}.

Definition remove (p : string) (s : state) : state :=
  {| self := self s; world := FS.set_files (delete p) (world s) |}.

(** The paths below the output directory. *)
Definition output (s : state) : list string :=
  sort (FS.descendants (world s) (outputPath (self s))).

End Fixture.

(** ** Further fixtures: variations of the test tree *)

Module Scenario.

Import Fixture.

(** A diamond: [routes.js] imports [utils/foo] and [utils/derp], and
    [utils/foo.js] imports [./derp] as well. *)
Definition diamond : state :=
  write "tmp/in/routes.js" (file 1 ["utils/foo"; "utils/derp"]) (start true).

(** The external package also exists as a file below the root. *)
Definition vendored : state :=
  write "tmp/in/ember-engines/routes.js" (file 1 [])
    (write "tmp/in/ember-engines" (dir 1) (start true)).

(** The same tree and instance, without the [external] option. *)
Definition vendored_not_external : state :=
  set_self (λ this,
    {| inputPath := inputPath this; outputPath := outputPath this;
       include := include this; entry := entry this;
       external := None;
       _depGraph := None; _depGraphTree := None;
       _nonDepGraph := None; _nonDepGraphTree := None |}) vendored.

(** After a first build, [engine.js] is rewritten. *)
Definition engine_edited (inc : bool) : state :=
  write "tmp/in/engine.js" (file 3 []) (tick (built inc)).

(** After a first build, the entry module is deleted. *)
Definition entry_deleted (inc : bool) : state :=
  remove "tmp/in/routes.js" (tick (built inc)).

(** After a first build, a new file appears next to the entry. *)
Definition file_added (inc : bool) : state :=
  write "tmp/in/new.js" (file 3 []) (tick (built inc)).

(** After a first build, the entry is rewritten to import [utils/herp]
    instead of [utils/foo]. *)
Definition graph_edited (inc : bool) : state :=
  write "tmp/in/routes.js" (file 3 ["utils/herp"]) (tick (built inc)).

(** The root has no entry module from the start. *)
Definition entry_missing (inc : bool) : state :=
  remove "tmp/in/routes.js" (start inc).

Definition graph (s : state) : list string := default [] (_depGraph (self s)).
Definition complement (s : state) : list string :=
  default [] (_nonDepGraph (self s)).
Definition graphTree (s : state) : FSTree.t :=
  default {| FSTree.entries := [] |} (_depGraphTree (self s)).
Definition complementTree (s : state) : FSTree.t :=
  default {| FSTree.entries := [] |} (_nonDepGraphTree (self s)).

End Scenario.

(** ** Notions used to state the properties *)


(** The complement computed by a recomputation for the recorded [modules]. *)
Definition complementOf (s : state) (modules : list string) : list string :=
  sort (filterDirectory (world s) (inputPath (self s)) ""
          (λ module, bool_decide (module ∉ modules))).

(** The set selected by the mode. *)
Definition toCopyOf (s : state) (modules : list string) : list string :=
  if include (self s) then sort modules else complementOf s modules.

(** The output directory is wiped, then the selected set is copied forward. *)
Definition copied (s : state) (modules : list string) : outcome unit * World :=
  copy_loop (inputPath (self s)) (outputPath (self s)) (toCopyOf s modules)
    (FS.rimraf (outputPath (self s)) (world s)).

Definition same_configuration (a b : Funnel) : Prop :=
  inputPath a = inputPath b ∧ outputPath a = outputPath b ∧
  include a = include b ∧ entry a = entry b ∧ external a = external b.

(** An option value that is falsy or [true]: what [undefined] and the
    booleans are. *)
Definition boolean_like (v : js_value) : bool :=
  match v with
  | Falsy => true
  | Truthy n => Z.eqb n 1
  end.

(** The four cached fields are all defined, or all undefined. *)
Definition cache_defined (this : Funnel) : bool :=
  match _depGraph this, _depGraphTree this,
        _nonDepGraph this, _nonDepGraphTree this with
  | Some _, Some _, Some _, Some _ => true
  | _, _, _, _ => false
  end.

Definition cache_undefined (this : Funnel) : bool :=
  match _depGraph this, _depGraphTree this,
        _nonDepGraph this, _nonDepGraphTree this with
  | None, None, None, None => true
  | _, _, _, _ => false
  end.

Definition cache_coherent (this : Funnel) : bool :=
  cache_defined this || cache_undefined this.

(** The number of paths of the disk that a walk has not loaded yet. *)
Definition unloaded (w : World) (st : Rollup.walk) : nat :=
  size (dom (files w) ∖ list_to_set (Rollup.loaded st) : gset string).

(** A walk step that neither runs out of fuel nor forgets a loaded module. *)
Definition progresses (st : Rollup.walk) (r : Rollup.result) : Prop :=
  match r with
  | Rollup.Finished st' => Rollup.loaded st ⊆ Rollup.loaded st'
  | Rollup.Rejected _ => True
  | Rollup.OutOfFuel => False
  end.

(** What the walk maintains about the hook of [_getRollupOptions]: no
    external specifier was handed to it, and every recorded module is the
    entry's or was pushed for one of the recorded imports. *)
Definition provenance (w : World) (this : Funnel) (st : Rollup.walk) : Prop :=
  (∀ source importer,
     (source, importer) ∈ Rollup.calls st →
     source ∉ default [] (external this)) ∧
  (∀ m, m ∈ Rollup.modules st →
     m = Str.replace_first (inputPath this) (entry this) ∨
     ∃ source importer p,
       (source, importer) ∈ Rollup.calls st ∧
       resolveId w (inputPath this) source (Some importer) []
       = (Ret (Some p), [m])).

(** Every path of [w] is still a path of [w']: nothing was removed. *)
Definition keeps (w w' : World) : Prop :=
  ∀ k, is_Some (files w !! k) → is_Some (files w' !! k).

(** ** Further notions *)

(** [s.includes(pat)]: [pat] occurs somewhere in [s]. *)
Fixpoint occurs (pat s : string) : bool :=
  match Str.strip_prefix pat s with
  | Some _ => true
  | None =>
      match s with
      | EmptyString => false
      | String _ s' => occurs pat s'
      end
  end.

(** The relative paths a patch operates on. *)
Definition patch_paths (patch : list FSTree.op) : list string :=
  (λ o : FSTree.op, o.1.2) <$> patch.

(** The relative paths of a snapshot, in order. *)
Definition snapshot_paths (t : FSTree.t) : list string :=
  FSTree.relativePath <$> FSTree.entries t.

(** The same instance on another disk: what the next build starts from when
    the environment has changed the files in between. *)
Definition on_disk (s : state) (w : World) : state :=
  {| self := self s; world := w |}.

(** A root that holds nothing but an entry without imports. *)
Definition lonely (inc : bool) : state :=
  {| self := Fixture.funnel inc;
     world := {| files := list_to_map
                            [("tmp", Fixture.dir 1); ("tmp/in", Fixture.dir 1);
                             ("tmp/out", Fixture.dir 1);
                             ("tmp/in/routes.js", Fixture.file 1 [])];
                 now := 2 |} |}.

(** ** Paths inside one another *)

(** What may follow a path to give that path or one below it: nothing, or a
    slash and more. *)
Definition suffix_ok (sfx : string) : bool :=
  Str.is_empty sfx || Str.starts_with_slash sfx.

(** [inside p k]: [k] is [p] or a path below [p]. *)
Definition inside (p k : string) : bool :=
  match Str.strip_prefix p k with
  | Some sfx => suffix_ok sfx
  | None => false
  end.

(** Neither of two directories is inside the other. *)
Definition apart (a b : string) : bool :=
  negb (inside a b) && negb (inside b a).

(** The joins of the input and the output path with [rel] are the plain
    concatenations: nothing is normalised away. *)
Definition plain (ip op rel : string) : Prop :=
  Path.join ip rel = ip +:+ "/" +:+ rel ∧
  Path.join op rel = op +:+ "/" +:+ rel.



(** [rel] names a file (anything but a directory) strictly below [root]. *)
Definition file_under_root (w : World) (root rel : string) : Prop :=
  rel ≠ "" ∧
  ∃ i, files w !! (root +:+ "/" +:+ rel) = Some i ∧
       FS.isDirectory (stats i) = false.

(** The diff of a cached snapshot against the current snapshot of the same
    paths, as [build] and [_buildNonDepGraphChanges] compute it; taking the
    current snapshot may throw. *)
Definition diff (this : Funnel) (w : World) (cached : FSTree.t)
    (paths : list string) : outcome (list FSTree.op) :=
  match _getFSTree this w paths with
  | Ret incoming => Ret (FSTree.calculatePatch cached incoming)
  | Throw msg => Throw msg
  end.


(** ** Closed facts are settled by evaluation *)

Ltac evaluate :=
  vm_compute;
  first [ reflexivity | discriminate | exact I
        | (intros H; discriminate H) ].

Ltac decide_by_evaluation :=
  match goal with
  | |- ?P => apply (@bool_decide_unpack P _); vm_compute; exact I
  end.

(** * Properties *)

(** ** Strings and paths *)

Lemma append_nil_l (r : string) : "" +:+ r = r.
Proof. reflexivity. Qed.

Lemma append_cons (a : Ascii.ascii) (p r : string) :
  String a p +:+ r = String a (p +:+ r).
Proof. reflexivity. Qed.

Lemma append_nil_r (r : string) : r +:+ "" = r.
Proof. induction r as [|a r IH]; [reflexivity|]. by rewrite append_cons, IH. Qed.

Lemma append_assoc (a b c : string) : (a +:+ b) +:+ c = a +:+ (b +:+ c).
Proof.
  induction a as [|x a IH]; [reflexivity|].
  by rewrite !append_cons, IH.
Qed.

Lemma append_inj_l (p a b : string) : p +:+ a = p +:+ b → a = b.
Proof. apply (inj (String.app p)). Qed.

(** Two ways of cutting the same string: one cut is inside the other. *)
Lemma append_eq_append (a s b t : string) :
  a +:+ s = b +:+ t →
  ∃ u, (b = a +:+ u ∧ s = u +:+ t) ∨ (a = b +:+ u ∧ t = u +:+ s).
Proof.
  revert b. induction a as [|x a IH]; intros b H.
  - exists b. left. by rewrite !append_nil_l in *.
  - destruct b as [|y b].
    + exists (String x a). right. by rewrite !append_nil_l in *.
    + rewrite !append_cons in H. injection H as -> H.
      destruct (IH b H) as [u [[-> ->]|[-> ->]]]; exists u; [left|right];
        by rewrite ?append_cons.
Qed.

Lemma append_length_neq (p r : string) : r ≠ "" → p +:+ r ≠ p.
Proof.
  intros Hr H. rewrite <- (append_nil_r p) in H at 2.
  apply append_inj_l in H. contradiction.
Qed.

Lemma strip_prefix_Some (p s r : string) :
  Str.strip_prefix p s = Some r ↔ s = p +:+ r.
Proof.
  revert s. induction p as [|a p IH]; intros s; simpl.
  - rewrite append_nil_l. split; congruence.
  - rewrite append_cons. destruct s as [|b s]; [split; discriminate|].
    destruct (Ascii.eqb_spec a b) as [->|Hne].
    + rewrite IH. split; congruence.
    + split; [discriminate|]. intros [= ? ?]. congruence.
Qed.

Lemma strip_prefix_app (p r : string) : Str.strip_prefix p (p +:+ r) = Some r.
Proof. by apply strip_prefix_Some. Qed.

Lemma is_empty_true (s : string) : Str.is_empty s = true ↔ s = "".
Proof. destruct s; simpl; split; congruence. Qed.

Lemma starts_with_slash_true (s : string) :
  Str.starts_with_slash s = true ↔ ∃ r, s = "/" +:+ r.
Proof.
  destruct s as [|c s]; simpl.
  - split; [discriminate|]. intros [r [=]].
  - split.
    + intros H. exists s. by apply Ascii.eqb_eq in H as ->.
    + intros [r [= -> _]]. reflexivity.
Qed.

Lemma suffix_ok_spec (sfx : string) :
  suffix_ok sfx = true ↔ sfx = "" ∨ ∃ r, sfx = "/" +:+ r.
Proof.
  unfold suffix_ok. rewrite orb_true_iff, is_empty_true.
  by rewrite starts_with_slash_true.
Qed.

Lemma suffix_ok_slash (r : string) : suffix_ok ("/" +:+ r) = true.
Proof. reflexivity. Qed.

Lemma suffix_ok_app (s t : string) :
  suffix_ok s = true → suffix_ok t = true → suffix_ok (s +:+ t) = true.
Proof.
  intros [->|[r ->]]%suffix_ok_spec Ht; [exact Ht|reflexivity].
Qed.

(** If [u ++ t] may follow a path then so may [u]. *)
Lemma suffix_ok_prefix (u t : string) :
  suffix_ok (u +:+ t) = true → suffix_ok t = true → suffix_ok u = true.
Proof.
  destruct u as [|c u]; [reflexivity|]. intros H _. exact H.
Qed.

Lemma inside_spec (p k : string) :
  inside p k = true ↔ ∃ sfx, k = p +:+ sfx ∧ suffix_ok sfx = true.
Proof.
  unfold inside. destruct (Str.strip_prefix p k) as [sfx|] eqn:E.
  - apply strip_prefix_Some in E as ->. split; [eauto|].
    intros (sfx' & H & Hok). by apply append_inj_l in H as ->.
  - split; [discriminate|]. intros (sfx & -> & _).
    by rewrite strip_prefix_app in E.
Qed.

Lemma inside_app (p sfx : string) :
  suffix_ok sfx = true → inside p (p +:+ sfx) = true.
Proof. intros H. apply inside_spec. eauto. Qed.

Lemma inside_refl (p : string) : inside p p = true.
Proof. apply inside_spec. exists "". by rewrite append_nil_r. Qed.

Lemma inside_trans (a b k : string) :
  inside a b = true → inside b k = true → inside a k = true.
Proof.
  rewrite !inside_spec. intros (s1 & -> & H1) (s2 & -> & H2).
  exists (s1 +:+ s2). split; [apply append_assoc|by apply suffix_ok_app].
Qed.

(** Two directories that share a path are inside one another. *)
Lemma inside_comparable (a b k : string) :
  inside a k = true → inside b k = true →
  inside a b = true ∨ inside b a = true.
Proof.
  rewrite !inside_spec. intros (s1 & -> & H1) (s2 & H & H2).
  apply append_eq_append in H as [u [[-> ->]|[-> ->]]].
  - left. exists u. split; [reflexivity|]. by eapply suffix_ok_prefix.
  - right. exists u. split; [reflexivity|]. by eapply suffix_ok_prefix.
Qed.

Lemma apart_disjoint (a b k : string) :
  apart a b = true → inside a k = true → inside b k = true → False.
Proof.
  unfold apart. intros [Ha Hb]%andb_true_iff H1 H2.
  destruct (inside_comparable a b k H1 H2) as [H|H]; rewrite H in *; done.
Qed.

(** *** [slash_prefixes], [ancestors], [dirname] *)

Lemma elem_of_slash_prefixes (a p : string) :
  a ∈ Path.slash_prefixes p ↔ ∃ rest, p = a +:+ "/" +:+ rest.
Proof.
  revert a. induction p as [|c p IH]; intros a; simpl.
  - split; [by intros ?%elem_of_nil|].
    intros [rest H]. by destruct a.
  - assert (Hrest : a ∈ String c <$> Path.slash_prefixes p ↔
                    ∃ a' rest, a = String c a' ∧ p = a' +:+ "/" +:+ rest).
    { rewrite list_elem_of_fmap. split.
      - intros (a' & -> & [rest ->]%IH). eauto.
      - intros (a' & rest & -> & ->). exists a'. split; [done|].
        apply IH. eauto. }
    destruct (Ascii.eqb_spec c Str.slash) as [->|Hc].
    + rewrite elem_of_cons, Hrest. split.
      * intros [->|(a' & rest & -> & ->)]; [by exists p|by exists rest].
      * intros [rest H]. destruct a as [|x a]; [by left|right].
        rewrite append_cons in H. injection H as <- ->. eauto.
    + rewrite Hrest. split.
      * intros (a' & rest & -> & ->). by exists rest.
      * intros [rest H]. destruct a as [|x a].
        -- rewrite append_nil_l in H. injection H as -> _. by destruct Hc.
        -- rewrite append_cons in H. injection H as <- ->. eauto.
Qed.

Lemma elem_of_ancestors (a p : string) :
  a ∈ Path.ancestors p → inside a p = true ∧ a ≠ p.
Proof.
  unfold Path.ancestors. intros [_ [rest ->]%elem_of_slash_prefixes]%list_elem_of_filter.
  split.
  - by apply inside_app.
  - intros H. symmetry in H. by apply append_length_neq in H.
Qed.









(** ** Listings *)

Lemma relative_Some (root k rel : string) :
  FS.relative root k = Some rel ↔ k = root +:+ "/" +:+ rel ∧ rel ≠ "".
Proof.
  unfold FS.relative.
  destruct (Str.strip_prefix (root +:+ "/") k) as [r|] eqn:E.
  - apply strip_prefix_Some in E. rewrite append_assoc in E. subst k.
    destruct (Str.is_empty r) eqn:Hr.
    + apply is_empty_true in Hr. subst r. split; [discriminate|].
      intros [Heq Hne]. do 2 apply append_inj_l in Heq. congruence.
    + split.
      * intros [= <-]. split; [reflexivity|]. intros ->. discriminate.
      * intros [Heq _]. do 2 apply append_inj_l in Heq. congruence.
  - split; [discriminate|]. intros [-> _].
    rewrite <- append_assoc in E. by rewrite strip_prefix_app in E.
Qed.

Lemma NoDup_omap_inj {A B} (f : A → option B) (l : list A) :
  (∀ x y z, x ∈ l → y ∈ l → f x = Some z → f y = Some z → x = y) →
  NoDup l → NoDup (omap f l).
Proof.
  intros Hinj H. induction H as [|x l Hx Hl IH]; csimpl; [constructor|].
  assert (IH' : NoDup (omap f l)).
  { apply IH. intros a b z Ha Hb. apply Hinj; by right. }
  destruct (f x) as [z|] eqn:E; [|exact IH'].
  constructor; [|exact IH'].
  intros (y & Hy & Hfy)%list_elem_of_omap.
  rewrite (Hinj x y z) in Hx; [done|by left|by right|done|done].
Qed.




Lemma elem_of_files_below (w : World) (root rel : string) :
  rel ∈ FS.files_below w root ↔ file_under_root w root rel.
Proof.
  unfold FS.files_below, file_under_root. rewrite list_elem_of_omap. split.
  - intros ([k i] & Hk & Hrel). simpl in Hrel.
    destruct (FS.isDirectory (stats i)) eqn:Hd; [discriminate|].
    apply relative_Some in Hrel as [-> Hne]. split; [exact Hne|].
    apply elem_of_map_to_list in Hk. eauto.
  - intros [Hne (i & Hi & Hd)]. exists (root +:+ "/" +:+ rel, i). split.
    + by apply elem_of_map_to_list.
    + simpl. rewrite Hd. by apply relative_Some.
Qed.

Lemma NoDup_files_below (w : World) (root : string) :
  NoDup (FS.files_below w root).
Proof.
  apply NoDup_omap_inj; [|apply NoDup_map_to_list].
  intros [k i] [k' i'] rel Hin Hin'. simpl.
  destruct (FS.isDirectory (stats i)); [discriminate|].
  destruct (FS.isDirectory (stats i')); [discriminate|].
  intros [-> _]%relative_Some [-> _]%relative_Some.
  apply elem_of_map_to_list in Hin, Hin'. congruence.
Qed.

Lemma elem_of_filterDirectory (w : World) (root p : string)
    (callback : string → bool) :
  p ∈ filterDirectory w root "" callback ↔
  callback p = true ∧ file_under_root w root p.
Proof.
  unfold filterDirectory. rewrite list_elem_of_filter. simpl.
  rewrite list_fmap_id. by rewrite elem_of_files_below.
Qed.

Lemma NoDup_filterDirectory (w : World) (root : string)
    (callback : string → bool) :
  NoDup (filterDirectory w root "" callback).
Proof.
  unfold filterDirectory. simpl. rewrite list_fmap_id.
  apply NoDup_filter, NoDup_files_below.
Qed.


(** ** [sort] *)

Lemma elem_of_sort (l : list string) (x : string) : x ∈ sort l ↔ x ∈ l.
Proof. unfold sort. by rewrite merge_sort_Permutation. Qed.

Lemma sort_sorted (l : list string) : StronglySorted String.le (sort l).
Proof. apply (StronglySorted_merge_sort String.le). Qed.

Lemma sort_permutation (l : list string) : sort l ≡ₚ l.
Proof. apply merge_sort_Permutation. Qed.

Lemma sort_order_independent (l l' : list string) : l ≡ₚ l' → sort l = sort l'.
Proof.
  intros H. apply (StronglySorted_unique String.le); try apply sort_sorted.
  by rewrite !sort_permutation.
Qed.

Lemma NoDup_sort (l : list string) : NoDup (sort l) ↔ NoDup l.
Proof. by rewrite sort_permutation. Qed.

Lemma StronglySorted_filter_le (P : string → Prop) `{!∀ x, Decision (P x)}
    (l : list string) :
  StronglySorted String.le l → StronglySorted String.le (filter P l).
Proof.
  induction 1 as [|x l Hl IH Hx]; [constructor|].
  rewrite filter_cons. case_decide; [|exact IH].
  constructor; [exact IH|].
  apply Forall_forall. intros y Hy. apply list_elem_of_filter in Hy as [_ Hy].
  by eapply Forall_forall in Hx.
Qed.

(** ** Snapshots *)

Lemma compare_refl (s : string) : String.compare s s = Eq.
Proof.
  induction s as [|a s IH]; simpl; [reflexivity|].
  unfold Ascii.compare. by rewrite N.compare_refl.
Qed.

Lemma ltb_irrefl (s : string) : String.ltb s s = false.
Proof. unfold String.ltb. by rewrite compare_refl. Qed.

Lemma le_ne_ltb (a b : string) : String.le a b → a ≠ b → String.ltb a b = true.
Proof.
  unfold String.le, String.leb, String.ltb. intros Hle Hne.
  destruct (String.compare a b) eqn:E; [|done|done].
  by apply String.compare_eq_iff in E.
Qed.

Lemma ltb_le_ne (a b : string) : String.ltb a b = true → String.le a b ∧ a ≠ b.
Proof.
  unfold String.le, String.leb, String.ltb.
  destruct (String.compare a b) eqn:E; try discriminate.
  intros _. split; [done|]. intros ->. by rewrite compare_refl in E.
Qed.

(** [fromEntries] accepts the paths of a list that is sorted and has no
    duplicates, and only those. *)
Lemma strictly_increasing_sorted (l : list string) :
  StronglySorted String.le l → NoDup l → FSTree.strictly_increasing l = true.
Proof.
  induction 1 as [|a l Hl IH Ha]; [reflexivity|].
  intros [Hin Hnd]%NoDup_cons. simpl. destruct l as [|b l]; [reflexivity|].
  apply andb_true_iff. split; [|by apply IH].
  apply Forall_cons in Ha as [Hab _]. apply le_ne_ltb; [exact Hab|].
  intros ->. apply Hin. by left.
Qed.

Lemma strictly_increasing_NoDup (l : list string) :
  FSTree.strictly_increasing l = true → StronglySorted String.le l ∧ NoDup l.
Proof.
  induction l as [|a l IH]; [by repeat constructor|].
  simpl. destruct l as [|b l].
  - intros _. split; repeat constructor. by intros ?%elem_of_nil.
  - intros [Hab Hl]%andb_true_iff. destruct (IH Hl) as [Hs Hn].
    apply ltb_le_ne in Hab as [Hle Hne].
    assert (Hall : Forall (String.le a) (b :: l)).
    { constructor; [exact Hle|]. apply StronglySorted_inv in Hs as [_ Hb].
      eapply Forall_impl; [exact Hb|]. intros c Hc. by etrans. }
    split; [by constructor|]. apply NoDup_cons. split; [|exact Hn].
    intros Hin. rewrite Forall_forall in Hall.
    apply elem_of_cons in Hin as [->|Hin]; [done|].
    apply StronglySorted_inv in Hs as [_ Hb]. rewrite Forall_forall in Hb.
    apply Hne. apply (anti_symm String.le); [exact Hle|by apply Hb].
Qed.

Lemma isEqual_refl (e : FSTree.Entry) : FSTree.isEqual e e = true.
Proof. unfold FSTree.isEqual. by rewrite !Z.eqb_refl. Qed.

Lemma walk_refl (es : list FSTree.Entry) : FSTree.walk es es = ([], []).
Proof.
  induction es as [|e es IH]; [reflexivity|].
  simpl. rewrite ltb_irrefl, IH, isEqual_refl. reflexivity.
Qed.

(** The diff of a snapshot with itself is empty. *)
Lemma calculatePatch_refl (t : FSTree.t) : FSTree.calculatePatch t t = [].
Proof. unfold FSTree.calculatePatch. by rewrite walk_refl. Qed.

(** The paths that [_getFSTree] hands to [fromEntries]: the listed paths
    that have a stat record, in the order given. *)
Lemma getFSTree_paths (this : Funnel) (w : World) (paths : list string) :
  FSTree.relativePath <$>
    omap (λ entryPath,
            match existsStat w (Path.join (inputPath this) entryPath) with
            | None => None
            | Some stat => Some (FSTree.fromStat entryPath stat)
            end) paths
  = filter (λ p, is_Some (existsStat w (Path.join (inputPath this) p))) paths.
Proof.
  induction paths as [|p paths IH]; [reflexivity|].
  csimpl. destruct (existsStat w (Path.join (inputPath this) p)) as [st|] eqn:E.
  - rewrite filter_cons_True by (rewrite E; eauto). csimpl. by rewrite IH.
  - rewrite filter_cons_False; [exact IH|]. rewrite E. by intros [? [=]].
Qed.

Lemma getFSTree_Ret (this : Funnel) (w : World) (paths : list string)
    (t : FSTree.t) :
  _getFSTree this w paths = Ret t →
  snapshot_paths t
  = filter (λ p, is_Some (existsStat w (Path.join (inputPath this) p))) paths ∧
  FSTree.strictly_increasing (snapshot_paths t) = true.
Proof.
  unfold _getFSTree, FSTree.fromEntries, snapshot_paths.
  destruct (FSTree.strictly_increasing _) eqn:E; [|discriminate].
  intros [= <-]. simpl. split; [apply getFSTree_paths|exact E].
Qed.

(** A sorted list without duplicates always has a snapshot. *)
Lemma getFSTree_sorted (this : Funnel) (w : World) (paths : list string) :
  StronglySorted String.le paths → NoDup paths →
  ∃ t, _getFSTree this w paths = Ret t.
Proof.
  intros Hs Hn. unfold _getFSTree, FSTree.fromEntries.
  rewrite getFSTree_paths, strictly_increasing_sorted; [eauto| |].
  - by apply StronglySorted_filter_le.
  - by apply NoDup_filter.
Qed.

Lemma getFSTree_ext (this : Funnel) (w w' : World) (paths : list string) :
  Forall (λ p, FS.stat w (Path.join (inputPath this) p)
               = FS.stat w' (Path.join (inputPath this) p)) paths →
  _getFSTree this w paths = _getFSTree this w' paths.
Proof.
  unfold _getFSTree. intros H. f_equal.
  induction H as [|p paths Hp _ IH]; [reflexivity|].
  csimpl. unfold existsStat in *. rewrite Hp.
  destruct (FS.stat w' _); [f_equal|]; exact IH.
Qed.

(** A snapshot depends on the instance through its input path alone. *)
Lemma getFSTree_inputPath (this this' : Funnel) (w : World)
    (paths : list string) :
  inputPath this = inputPath this' →
  _getFSTree this w paths = _getFSTree this' w paths.
Proof. unfold _getFSTree. by intros ->. Qed.

(** ** The disk *)

(** [rimraf] removes the path and everything below it, and nothing else. *)
Lemma rimraf_lookup (p k : string) (w : World) :
  files (FS.rimraf p w) !! k =
  if decide (k ≠ p ∧ Str.strip_prefix (p +:+ "/") k = None)
  then files w !! k else None.
Proof.
  unfold FS.rimraf. simpl. destruct (files w !! k) as [i|] eqn:E.
  - case_decide as H.
    + apply map_lookup_filter_Some. by split.
    + apply map_lookup_filter_None. right. intros i' Hi'. exact H.
  - rewrite (proj2 (map_lookup_filter_None _ _ _)); [by case_decide|].
    by left.
Qed.

Lemma inside_false (p k : string) :
  inside p k = false ↔ k ≠ p ∧ Str.strip_prefix (p +:+ "/") k = None.
Proof.
  split.
  - intros H. split.
    + intros ->. by rewrite inside_refl in H.
    + destruct (Str.strip_prefix (p +:+ "/") k) as [r|] eqn:E; [|done].
      apply strip_prefix_Some in E as ->. rewrite append_assoc in H.
      by rewrite inside_app in H.
  - intros [Hne Hs]. destruct (inside p k) eqn:E; [|done].
    apply inside_spec in E as (sfx & -> & [->|[r ->]]%suffix_ok_spec).
    + by rewrite append_nil_r in Hne.
    + by rewrite <- append_assoc, strip_prefix_app in Hs.
Qed.

Lemma rimraf_inside (p k : string) (w : World) :
  files (FS.rimraf p w) !! k = if inside p k then None else files w !! k.
Proof.
  rewrite rimraf_lookup. destruct (inside p k) eqn:E.
  - rewrite decide_False; [done|]. intros H%inside_false. congruence.
  - rewrite decide_True; [done|]. by apply inside_false.
Qed.

(** *** Links *)

Lemma elem_of_below (src : string) (fs : gmap string inode) (sfx : string)
    (j : inode) :
  (sfx, j) ∈ FS.below src fs ↔
  ∃ rel, sfx = "/" +:+ rel ∧ fs !! (src +:+ "/" +:+ rel) = Some j.
Proof.
  unfold FS.below. rewrite list_elem_of_omap. split.
  - intros ([k i] & Hk & H). simpl in H.
    destruct (Str.strip_prefix (src +:+ "/") k) as [rel|] eqn:E; [|done].
    injection H as <- <-. apply strip_prefix_Some in E as ->.
    apply elem_of_map_to_list in Hk. rewrite append_assoc in Hk. eauto.
  - intros (rel & -> & H). exists (src +:+ "/" +:+ rel, j). split.
    + by apply elem_of_map_to_list.
    + simpl. by rewrite <- append_assoc, strip_prefix_app.
Qed.

Lemma NoDup_below (src : string) (fs : gmap string inode) :
  NoDup (FS.below src fs).*1.
Proof.
  apply NoDup_fmap_fst.
  - intros sfx j1 j2 (rel & -> & H1)%elem_of_below (rel' & Heq & H2)%elem_of_below.
    apply append_inj_l in Heq as <-. congruence.
  - apply NoDup_omap_inj; [|apply NoDup_map_to_list].
    intros [k i] [k' i'] [sfx j] Hin Hin'. simpl.
    destruct (Str.strip_prefix (src +:+ "/") k) as [rel|] eqn:E; [|done].
    destruct (Str.strip_prefix (src +:+ "/") k') as [rel'|] eqn:E'; [|done].
    intros [= <- <-] [= Heq <-]. apply append_inj_l in Heq as ->.
    apply strip_prefix_Some in E as ->. by apply strip_prefix_Some in E' as ->.
Qed.

Lemma foldr_insert_other (dst : string) (l : list (string * inode))
    (m : gmap string inode) (k : string) :
  (∀ e, e ∈ l → k ≠ dst +:+ e.1) →
  foldr (λ e m, <[dst +:+ e.1 := e.2]> m) m l !! k = m !! k.
Proof.
  induction l as [|e l IH]; intros H; [reflexivity|]. simpl.
  rewrite lookup_insert_ne.
  - apply IH. intros e' He'. apply H. by right.
  - intros Heq. by apply (H e); [left|].
Qed.

Lemma foldr_insert_elem (dst : string) (l : list (string * inode))
    (m : gmap string inode) (sfx : string) (j : inode) :
  NoDup l.*1 → (sfx, j) ∈ l →
  foldr (λ e m, <[dst +:+ e.1 := e.2]> m) m l !! (dst +:+ sfx) = Some j.
Proof.
  induction l as [|e l IH]; [by intros _ ?%elem_of_nil|].
  rewrite fmap_cons. intros [Hnin Hnd]%NoDup_cons [<-|Hin]%elem_of_cons; simpl.
  - by rewrite lookup_insert_eq.
  - rewrite lookup_insert_ne; [by apply IH|].
    intros Heq. apply append_inj_l in Heq. apply Hnin.
    apply list_elem_of_fmap. exists (sfx, j). by split.
Qed.

(** What a link shows: the source at the destination, what is below the
    source below the destination, and everything else as it was. *)
Lemma graft_lookup (src dst : string) (i : inode) (fs : gmap string inode)
    (k : string) :
  FS.graft src dst i fs !! k =
  if decide (k = dst) then Some i
  else match Str.strip_prefix (dst +:+ "/") k with
       | Some rel =>
           match fs !! (src +:+ "/" +:+ rel) with
           | Some j => Some j
           | None => fs !! k
           end
       | None => fs !! k
       end.
Proof.
  unfold FS.graft. case_decide as Hk.
  - subst k. rewrite foldr_insert_other; [by rewrite lookup_insert_eq|].
    intros [sfx j] (rel & -> & _)%elem_of_below. simpl.
    intros H. symmetry in H. by apply append_length_neq in H.
  - destruct (Str.strip_prefix (dst +:+ "/") k) as [rel|] eqn:E.
    + apply strip_prefix_Some in E. rewrite append_assoc in E. subst k.
      destruct (fs !! (src +:+ "/" +:+ rel)) as [j|] eqn:Hj.
      * apply foldr_insert_elem; [apply NoDup_below|].
        apply elem_of_below. eauto.
      * rewrite foldr_insert_other; [by rewrite lookup_insert_ne|].
        intros [sfx j] (rel' & -> & Hj')%elem_of_below. simpl.
        intros Heq. do 2 apply append_inj_l in Heq. congruence.
    + rewrite foldr_insert_other; [by rewrite lookup_insert_ne|].
      intros [sfx j] (rel' & -> & _)%elem_of_below. simpl. intros ->.
      by rewrite <- append_assoc, strip_prefix_app in E.
Qed.

Lemma graft_outside (src dst : string) (i : inode) (fs : gmap string inode)
    (k : string) :
  inside dst k = false → FS.graft src dst i fs !! k = fs !! k.
Proof.
  intros [Hne Hs]%inside_false. rewrite graft_lookup, decide_False by done.
  by rewrite Hs.
Qed.

Lemma mkdirs_effect (ps : list string) (w : World) :
  ∀ k, files (FS.mkdirs ps w).2 !! k = files w !! k ∨
       (files w !! k = None ∧ k ∈ ps).
Proof.
  revert w. induction ps as [|p ps IH]; intros w k; simpl; [by left|].
  destruct (files w !! p) as [i|] eqn:E.
  - destruct (FS.isDirectory (stats i)); [|by left].
    destruct (IH w k) as [H|[H Hin]]; [by left|right].
    split; [exact H|by right].
  - destruct (IH (FS.set_files <[p := FS.dir_inode w]> w) k) as [H|[H Hin]].
    + simpl in H. destruct (decide (p = k)) as [->|Hne].
      * right. split; [exact E|by left].
      * left. by rewrite lookup_insert_ne in H.
    + simpl in H. destruct (decide (p = k)) as [->|Hne].
      * by rewrite lookup_insert_eq in H.
      * rewrite lookup_insert_ne in H by done. right. split; [exact H|by right].
Qed.

Lemma unlinkSync_effect (p k : string) (w : World) :
  files (FS.unlinkSync p w).2 !! k = files w !! k ∨ k = p.
Proof.
  destruct (decide (k = p)) as [->|Hne]; [by right|left].
  unfold FS.unlinkSync. destruct (FS.stat w p) as [st|]; [|done].
  destruct (FS.isDirectory st); [done|]. simpl. by rewrite lookup_delete_ne.
Qed.

Lemma symlinkOrCopySync_Ret (src dst : string) (w w' : World) :
  FS.symlinkOrCopySync src dst w = (Ret tt, w') →
  ∃ i, files w !! src = Some i ∧ files w !! dst = None ∧
       FS.isDir w (Path.dirname dst) = true ∧
       w' = FS.set_files (FS.graft src dst i) w.
Proof.
  unfold FS.symlinkOrCopySync.
  destruct (files w !! src) as [i|]; [|discriminate].
  destruct (files w !! dst); [discriminate|].
  destruct (FS.isDir w _); [|discriminate].
  intros [= <-]. eauto.
Qed.

(** A copy that returns has prepared the disk (directories made above the
    destination, a file in the way removed) and then linked. *)
Lemma copyFile_Ret (src dst : string) (w w' : World) :
  copyFile src dst w = (Ret tt, w') →
  ∃ w2 i,
    files w2 !! src = Some i ∧ files w2 !! dst = None ∧
    files w' = FS.graft src dst i (files w2) ∧
    ∀ k, files w2 !! k = files w !! k ∨
         (files w !! k = None ∧ k ∈ Path.ancestors dst) ∨ k = dst.
Proof.
  unfold copyFile.
  destruct (FS.symlinkOrCopySync src dst w) as [[[]|msg] w1] eqn:E1.
  - intros [= <-]. apply symlinkOrCopySync_Ret in E1 as (i & H1 & H2 & _ & ->).
    exists w, i. repeat split; eauto.
  - pose proof (mkdirs_effect (Path.ancestors dst) w) as Hmk.
    destruct (FS.mkdirs (Path.ancestors dst) w) as [[[]|msg'] w2]; [|discriminate].
    simpl in Hmk. intros (i & H1 & H2 & _ & ->)%symlinkOrCopySync_Ret.
    exists (FS.unlinkSync dst w2).2, i. repeat split; eauto.
    intros k. destruct (unlinkSync_effect dst k w2) as [Hu|Hu];
      [rewrite Hu|by right; right].
    destruct (Hmk k) as [Hm|Hm]; [by left|by right; left].
Qed.

(** ** [_copy]: what a copy that returns has done

    The input and the output directory are apart: neither is inside the
    other. A path is copied from [ip ++ y] to [op ++ y]. *)

Section copy.
Context (ip op : string).
Hypothesis Hapart : apart ip op = true.

Lemma input_not_output (k : string) :
  inside ip k = true → inside op k = false.
Proof.
  intros H. destruct (inside op k) eqn:E; [|done].
  destruct (apart_disjoint _ _ _ Hapart H E).
Qed.

Lemma output_not_input (k : string) :
  inside op k = true → inside ip k = false.
Proof.
  intros H. destruct (inside ip k) eqn:E; [|done].
  destruct (apart_disjoint _ _ _ Hapart E H).
Qed.

Lemma not_above_output (a y : string) :
  suffix_ok y = true → a ∈ Path.ancestors (op +:+ y) → inside ip a = false.
Proof.
  intros Hy [Ha _]%elem_of_ancestors.
  destruct (inside ip a) eqn:E; [|done].
  destruct (apart_disjoint ip op (op +:+ y) Hapart).
  - by eapply inside_trans.
  - by apply inside_app.
Qed.

Lemma copyFile_step (y : string) (w w1 : World) :
  suffix_ok y = true →
  copyFile (ip +:+ y) (op +:+ y) w = (Ret tt, w1) →
  (∀ k, inside ip k = true → files w1 !! k = files w !! k) ∧
  (∀ x, suffix_ok x = true →
        files w1 !! (op +:+ x) = files w !! (op +:+ x) ∨
        (is_Some (files w !! (ip +:+ x)) ∧
         files w1 !! (op +:+ x) = files w !! (ip +:+ x)) ∨
        files w !! (op +:+ x) = None) ∧
  (is_Some (files w !! (ip +:+ y)) ∧
   files w1 !! (op +:+ y) = files w !! (ip +:+ y)) ∧
  (∀ k, is_Some (files w1 !! k) →
        is_Some (files w !! k) ∨ inside k (op +:+ y) = true ∨
        inside (op +:+ y) k = true).
Proof.
  intros Hy (w2 & i & Hsrc & Hdst & Hw1 & Hw2)%copyFile_Ret.
  assert (Hdo : inside op (op +:+ y) = true) by by apply inside_app.
  assert (Hin : ∀ k, inside ip k = true → files w2 !! k = files w !! k).
  { intros k Hk. destruct (Hw2 k) as [H|[[_ H]|H]]; [exact H| |].
    - apply (not_above_output _ _ Hy) in H. congruence.
    - subst k. apply input_not_output in Hk. congruence. }
  assert (Hsrc' : files w !! (ip +:+ y) = Some i).
  { rewrite <- Hin; [exact Hsrc|by apply inside_app]. }
  split; [|split; [|split]].
  - intros k Hk. rewrite Hw1, graft_outside; [by apply Hin|].
    destruct (inside (op +:+ y) k) eqn:E; [|done].
    apply input_not_output in Hk.
    by rewrite (inside_trans _ _ _ Hdo E) in Hk.
  - intros x Hx. rewrite Hw1, graft_lookup. case_decide as Hk.
    + apply append_inj_l in Hk as ->. right; left. rewrite Hsrc'. eauto.
    + destruct (Str.strip_prefix ((op +:+ y) +:+ "/") (op +:+ x))
        as [rel|] eqn:E.
      * apply strip_prefix_Some in E. rewrite !append_assoc in E.
        apply append_inj_l in E as ->. rewrite append_assoc.
        assert (Hkey : files w2 !! (ip +:+ y +:+ "/" +:+ rel)
                       = files w !! (ip +:+ y +:+ "/" +:+ rel)).
        { apply Hin, inside_app, suffix_ok_app; [exact Hy|reflexivity]. }
        destruct (files w2 !! (ip +:+ y +:+ "/" +:+ rel)) as [j|] eqn:Hj.
        -- right; left. rewrite <- Hkey. eauto.
        -- destruct (Hw2 (op +:+ y +:+ "/" +:+ rel)) as [H|[[H _]|H]].
           ++ left. exact H.
           ++ right; right. exact H.
           ++ rewrite <- append_assoc in H. by apply append_length_neq in H.
      * destruct (Hw2 (op +:+ x)) as [H|[[H _]|H]]; [by left|by right; right|].
        done.
  - rewrite Hsrc'. split; [eauto|].
    by rewrite Hw1, graft_lookup, decide_True.
  - intros k. rewrite Hw1, graft_lookup. case_decide as Hk.
    + subst k. intros _. right; right. apply inside_refl.
    + destruct (Str.strip_prefix ((op +:+ y) +:+ "/") k) as [rel|] eqn:E.
      * intros _. right; right. apply strip_prefix_Some in E as ->.
        rewrite append_assoc. by apply inside_app.
      * intros Hs. destruct (Hw2 k) as [H|[[_ H]|H]].
        -- left. by rewrite <- H.
        -- right; left. by apply elem_of_ancestors in H as [H _].
        -- done.
Qed.

Lemma copy_loop_effect (inodes : list string) :
  ∀ w w',
    Forall (plain ip op) inodes →
    copy_loop ip op inodes w = (Ret tt, w') →
    (∀ k, inside ip k = true → files w' !! k = files w !! k) ∧
    (∀ x, suffix_ok x = true →
          files w' !! (op +:+ x) = files w !! (op +:+ x) ∨
          (is_Some (files w !! (ip +:+ x)) ∧
           files w' !! (op +:+ x) = files w !! (ip +:+ x)) ∨
          files w !! (op +:+ x) = None) ∧
    (∀ m, m ∈ inodes →
          is_Some (files w !! (ip +:+ "/" +:+ m)) ∧
          files w' !! (op +:+ "/" +:+ m) = files w !! (ip +:+ "/" +:+ m)) ∧
    (∀ k, is_Some (files w' !! k) →
          is_Some (files w !! k) ∨
          ∃ m, m ∈ inodes ∧
               (inside k (op +:+ "/" +:+ m) = true ∨
                inside (op +:+ "/" +:+ m) k = true)).
Proof.
  induction inodes as [|module rest IH]; intros w w' Hplain.
  - intros [= <-]. split; [done|]. split; [by left|].
    split; [by intros m ?%elem_of_nil|]. by left.
  - apply Forall_cons in Hplain as [[Hi Ho] Hplain]. simpl. unfold bind.
    rewrite Hi, Ho.
    destruct (copyFile (ip +:+ "/" +:+ module) (op +:+ "/" +:+ module) w)
      as [[[]|msg] w1] eqn:E; [|discriminate].
    apply (copyFile_step ("/" +:+ module)) in E as (Ha & Hb & Hc & Hd);
      [|reflexivity].
    intros (IHa & IHb & IHc & IHd)%IH; [|exact Hplain].
    split; [|split; [|split]].
    + intros k Hk. by rewrite IHa, Ha.
    + intros x Hx.
      destruct (IHb x Hx) as [H|[[Hs H]|H]].
      * rewrite H. apply Hb, Hx.
      * right; left. rewrite Ha in Hs, H by by apply inside_app. by split.
      * destruct (Hb x Hx) as [H'|[[Hs H']|H']].
        -- right; right. congruence.
        -- rewrite <- H', H in Hs. by destruct Hs.
        -- by right; right.
    + intros m [->|Hm]%elem_of_cons.
      * split; [apply Hc|].
        destruct (IHb ("/" +:+ module) eq_refl) as [H|[[_ H]|H]].
        -- rewrite H. apply Hc.
        -- rewrite H. apply Ha. by apply inside_app.
        -- destruct Hc as [Hs Hc]. rewrite <- Hc, H in Hs. by destruct Hs.
      * destruct (IHc m Hm) as [Hs H].
        rewrite Ha in Hs, H by by apply inside_app. by split.
    + intros k Hk. destruct (IHd k Hk) as [H|(m & Hm & H)].
      * destruct (Hd k H) as [H'|H']; [by left|].
        right. exists module. split; [by left|exact H'].
      * right. exists m. split; [by right|exact H].
Qed.

(** *** Copying the names directly inside the root into an empty place *)




End copy.

(** ** Methods and the instance *)

Lemma onWorld_self {A} (c : M World A) (s : state) :
  self (onWorld c s).2 = self s.
Proof. unfold onWorld. destruct (c (world s)) as [o w']. reflexivity. Qed.

Lemma onWorld_world {A} (c : M World A) (s : state) :
  world (onWorld c s).2 = (c (world s)).2.
Proof. unfold onWorld. destruct (c (world s)) as [o w']. reflexivity. Qed.

Lemma onWorld_outcome {A} (c : M World A) (s : state) :
  (onWorld c s).1 = (c (world s)).1.
Proof. unfold onWorld. destruct (c (world s)) as [o w']. reflexivity. Qed.

Lemma _copy_self (inodes : list string) (s : state) :
  self (_copy inodes s).2 = self s.
Proof. apply onWorld_self. Qed.

Lemma _buildNonDepGraphChanges_self (s : state) :
  self (_buildNonDepGraphChanges s).2 = self s.
Proof.
  unfold _buildNonDepGraphChanges.
  destruct (_nonDepGraph (self s)) as [ndg|]; [|reflexivity].
  destruct (_getFSTree _ _ _) as [incoming|msg]; [|reflexivity].
  destruct (_nonDepGraphTree (self s)) as [t|]; [|reflexivity].
  destruct (negb (nonEmpty _)); [reflexivity|].
  destruct (negb (include (self s))); [apply onWorld_self|reflexivity].
Qed.

Lemma build_fast_path (s : state) :
  depGraphUnchanged s = Ret true → build s = _buildNonDepGraphChanges s.
Proof. intros H. unfold build. rewrite H. reflexivity. Qed.

Lemma depGraphUnchanged_true (s : state) :
  depGraphUnchanged s = Ret true ↔
  ∃ dg t, _depGraph (self s) = Some dg ∧ _depGraphTree (self s) = Some t ∧
          diff (self s) (world s) t dg = Ret [].
Proof.
  unfold depGraphUnchanged, diff. split.
  - destruct (_depGraph (self s)) as [dg|]; [|discriminate].
    destruct (_getFSTree _ _ _) as [incoming|msg] eqn:E; [|discriminate].
    destruct (_depGraphTree (self s)) as [t|]; [|discriminate].
    destruct (FSTree.calculatePatch _ _) eqn:Ep; [|discriminate].
    intros _. exists dg, t. by rewrite E, Ep.
  - intros (dg & t & -> & -> & H).
    destruct (_getFSTree _ _ _) as [incoming|msg]; [|discriminate].
    by injection H as ->.
Qed.

Lemma depGraphUnchanged_false (s : state) (dg : list string) (t : FSTree.t)
    (patch : list FSTree.op) :
  _depGraph (self s) = Some dg → _depGraphTree (self s) = Some t →
  diff (self s) (world s) t dg = Ret patch → patch ≠ [] →
  depGraphUnchanged s = Ret false.
Proof.
  intros Hdg Ht Hd Hp. unfold depGraphUnchanged, diff in *. rewrite Hdg, Ht.
  destruct (_getFSTree _ _ _) as [incoming|msg]; [|discriminate].
  injection Hd as ->. by destruct patch.
Qed.

(** The resolution path with the entry present: the walk, then
    [_copyDepGraph]. *)
Lemma build_recompute (s : state) (modules : list string) :
  depGraphUnchanged s = Ret false →
  FS.existsSync (world s) (Path.join (inputPath (self s)) (entry (self s))) = true →
  Rollup.rollup (world s) (_getRollupOptions (self s) (world s)) [] = Ret modules →
  build s = _copyDepGraph modules s.
Proof. intros H1 H2 H3. unfold build. by rewrite H1, H2, H3. Qed.

(** [_copyDepGraph], statement by statement: the two sets are assigned
    first, then the output is wiped and the selected set copied, then the
    two snapshots are taken and assigned one after the other; an exception
    leaves the assignments done so far. *)
Lemma _copyDepGraph_spec (modules : list string) (s : state) :
  let r := _copyDepGraph modules s in
  let c := copied s modules in
  world r.2 = c.2 ∧
  same_configuration (self r.2) (self s) ∧
  _depGraph (self r.2) = Some (sort modules) ∧
  _nonDepGraph (self r.2) = Some (complementOf s modules) ∧
  match c.1 with
  | Throw msg =>
      r.1 = Throw msg ∧
      _depGraphTree (self r.2) = _depGraphTree (self s) ∧
      _nonDepGraphTree (self r.2) = _nonDepGraphTree (self s)
  | Ret _ =>
      match _getFSTree (self s) c.2 (sort modules) with
      | Throw msg =>
          r.1 = Throw msg ∧
          _depGraphTree (self r.2) = _depGraphTree (self s) ∧
          _nonDepGraphTree (self r.2) = _nonDepGraphTree (self s)
      | Ret depGraphTree =>
          _depGraphTree (self r.2) = Some depGraphTree ∧
          match _getFSTree (self s) c.2 (complementOf s modules) with
          | Throw msg =>
              r.1 = Throw msg ∧
              _nonDepGraphTree (self r.2) = _nonDepGraphTree (self s)
          | Ret nonDepGraphTree =>
              r.1 = Ret tt ∧
              _nonDepGraphTree (self r.2) = Some nonDepGraphTree
          end
      end
  end.
Proof.
  unfold copied, toCopyOf, complementOf, same_configuration.
  unfold _copyDepGraph, bind, get, modify, _copy, onWorld, set_self, snapshot.
  simpl.
  destruct (copy_loop _ _ _ _) as [[[]|msg] w']; simpl; [|done].
  change (_getFSTree _ w' (sort modules))
    with (_getFSTree (self s) w' (sort modules)).
  destruct (_getFSTree (self s) w' (sort modules)) as [t1|msg]; simpl; [|done].
  match goal with
  | |- context [_getFSTree ?this w' (sort (filterDirectory ?a ?b ?c ?d))] =>
      change (_getFSTree this w' (sort (filterDirectory a b c d)))
        with (_getFSTree (self s) w' (sort (filterDirectory a b c d)))
  end.
  destruct (_getFSTree (self s) w' _) as [t2|msg]; simpl; done.
Qed.

(** The complement of a recomputation: the files below the root that were
    not recorded. *)
Lemma complementOf_spec (s : state) (modules : list string) (p : string) :
  p ∈ complementOf s modules ↔
  (p ∉ modules) ∧ file_under_root (world s) (inputPath (self s)) p.
Proof.
  unfold complementOf. rewrite elem_of_sort, elem_of_filterDirectory.
  by rewrite bool_decide_eq_true.
Qed.

(** Line 156 never throws: the listing has no path twice. *)
Lemma complement_snapshot (this : Funnel) (w : World) (s : state)
    (modules : list string) :
  ∃ t, _getFSTree this w (complementOf s modules) = Ret t.
Proof.
  apply getFSTree_sorted; [apply sort_sorted|].
  apply NoDup_sort, NoDup_filterDirectory.
Qed.

(** Line 155 does not throw when no module was recorded twice. *)
Lemma graph_snapshot (this : Funnel) (w : World) (modules : list string) :
  NoDup modules → ∃ t, _getFSTree this w (sort modules) = Ret t.
Proof.
  intros H. apply getFSTree_sorted; [apply sort_sorted|by apply NoDup_sort].
Qed.

Lemma _copyDepGraph_Ret (modules : list string) (s : state) :
  let r := _copyDepGraph modules s in
  r.1 = Ret tt →
  (copied s modules).1 = Ret tt ∧
  ∃ t1 t2,
    _getFSTree (self r.2) (world r.2) (sort modules) = Ret t1 ∧
    _depGraphTree (self r.2) = Some t1 ∧
    _getFSTree (self r.2) (world r.2) (complementOf s modules) = Ret t2 ∧
    _nonDepGraphTree (self r.2) = Some t2.
Proof.
  simpl. intros Hok.
  destruct (_copyDepGraph_spec modules s) as (Hw & (Hip & _) & _ & _ & H).
  rewrite Hw, (getFSTree_inputPath _ (self s) _ (sort modules) Hip),
    (getFSTree_inputPath _ (self s) _ (complementOf s modules) Hip).
  destruct (copied s modules).1 as [[]|msg]; [|destruct H; congruence].
  split; [reflexivity|].
  destruct (_getFSTree (self s) _ (sort modules)) as [t1|msg];
    [|destruct H; congruence].
  destruct H as [H1 H].
  destruct (_getFSTree (self s) _ (complementOf s modules)) as [t2|msg];
    [|destruct H; congruence].
  destruct H as [_ H2]. by exists t1, t2.
Qed.

Lemma _copyDepGraph_completes (modules : list string) (s : state) :
  (copied s modules).1 = Ret tt → NoDup modules →
  (_copyDepGraph modules s).1 = Ret tt.
Proof.
  intros Hc Hn.
  destruct (_copyDepGraph_spec modules s) as (_ & _ & _ & _ & H).
  rewrite Hc in H.
  destruct (graph_snapshot (self s) (copied s modules).2 modules Hn) as [t1 E1].
  destruct (complement_snapshot (self s) (copied s modules).2 s modules)
    as [t2 E2].
  rewrite E1, E2 in H. apply H.
Qed.

(** Building twice in a row: right after a recomputation that completed, a
    second build on the same disk changes nothing. *)
Lemma rebuild_after_recompute_is_noop (modules : list string) (s : state) :
  (_copyDepGraph modules s).1 = Ret tt →
  build (_copyDepGraph modules s).2 = (Ret tt, (_copyDepGraph modules s).2).
Proof.
  intros Hok.
  destruct (_copyDepGraph_spec modules s) as (_ & _ & Hdg & Hndg & _).
  destruct (_copyDepGraph_Ret modules s Hok)
    as (_ & t1 & t2 & E1 & Ht1 & E2 & Ht2).
  rewrite build_fast_path.
  - unfold _buildNonDepGraphChanges. rewrite Hndg, E2, Ht2.
    by rewrite calculatePatch_refl.
  - apply depGraphUnchanged_true. exists (sort modules), t1.
    split; [exact Hdg|]. split; [exact Ht1|]. unfold diff.
    by rewrite E1, calculatePatch_refl.
Qed.

(** [_copy] hands every listed path to the copy helper, in order: whatever
    a call of the helper establishes for its path, and later calls keep,
    holds for every listed path once the loop has returned. Nothing is
    assumed about the helper. *)
Lemma copy_loop_keeps (ip op : string) (P : World → Prop)
    (inodes : list string) :
  ∀ w w',
    (∀ m w1 w2, m ∈ inodes → P w1 →
       copyFile (Path.join ip m) (Path.join op m) w1 = (Ret tt, w2) → P w2) →
    P w → copy_loop ip op inodes w = (Ret tt, w') → P w'.
Proof.
  induction inodes as [|module rest IH]; intros w w' Hkeep HP.
  - by intros [= <-].
  - simpl. unfold bind.
    destruct (copyFile _ _ w) as [[[]|msg] w1] eqn:E; [|discriminate].
    apply IH.
    + intros m w2 w3 Hm. apply Hkeep. by right.
    + eapply Hkeep; [by left|exact HP|exact E].
Qed.

Lemma copy_loop_each (ip op : string) (Q : string → World → Prop)
    (inodes : list string) :
  ∀ w w',
    (∀ m w1 w2, m ∈ inodes →
       copyFile (Path.join ip m) (Path.join op m) w1 = (Ret tt, w2) → Q m w2) →
    (∀ m m' w1 w2, m ∈ inodes → m' ∈ inodes → Q m w1 →
       copyFile (Path.join ip m') (Path.join op m') w1 = (Ret tt, w2) →
       Q m w2) →
    copy_loop ip op inodes w = (Ret tt, w') →
    ∀ m, m ∈ inodes → Q m w'.
Proof.
  induction inodes as [|module rest IH]; intros w w' Hest Hkeep.
  - by intros _ m ?%elem_of_nil.
  - simpl. unfold bind.
    destruct (copyFile _ _ w) as [[[]|msg] w1] eqn:E; [|discriminate].
    intros Hloop m [->|Hm]%elem_of_cons.
    + apply (copy_loop_keeps ip op (Q module) rest w1 w'); [|by eapply Hest; [left|]|done].
      intros m' w2 w3 Hm'. apply Hkeep; [by left|by right].
    + apply (IH w1 w'); [| |exact Hloop|exact Hm].
      * intros m' w2 w3 Hm'. apply Hest. by right.
      * intros m1 m2 w2 w3 H1 H2. apply Hkeep; by right.
Qed.

(** What the copy helper leaves behind when it returns: the destination
    exists, and no path has disappeared. *)
Lemma copyFile_Ret_dst (src dst : string) (w w' : World) :
  copyFile src dst w = (Ret tt, w') → is_Some (files w' !! dst).
Proof.
  intros (w2 & i & _ & _ & -> & _)%copyFile_Ret.
  rewrite graft_lookup, decide_True by done. eauto.
Qed.

Lemma copyFile_Ret_keeps (src dst : string) (w w' : World) :
  copyFile src dst w = (Ret tt, w') → keeps w w'.
Proof.
  intros (w2 & i & _ & _ & Hw' & Hw2)%copyFile_Ret k Hk.
  rewrite Hw', graft_lookup. case_decide as Hne; [eauto|].
  assert (H2 : is_Some (files w2 !! k)).
  { destruct (Hw2 k) as [H|[[Hn _]|H]]; [by rewrite H| |contradiction].
    rewrite Hn in Hk. by destruct Hk. }
  destruct (Str.strip_prefix _ k); [|done].
  by destruct (files w2 !! (src +:+ "/" +:+ _)).
Qed.

(** ** The graph walk *)

Section walk.
Context (w : World) (o : Rollup.options).

Lemma load_dom (id : string) (sources : list string) :
  Rollup.load w id = Some sources → id ∈ dom (files w).
Proof.
  unfold Rollup.load. destruct (files w !! id) eqn:E; [|discriminate].
  intros _. apply elem_of_dom. eauto.
Qed.

Lemma unloaded_mono (st st' : Rollup.walk) :
  Rollup.loaded st ⊆ Rollup.loaded st' → (unloaded w st' ≤ unloaded w st)%nat.
Proof.
  intros H. unfold unloaded. apply subseteq_size.
  intros x. rewrite !elem_of_difference, !elem_of_list_to_set.
  intros [Hx Hn]. split; [exact Hx|]. intros Hl. apply Hn, H, Hl.
Qed.

Lemma unloaded_mark (id : string) (st : Rollup.walk) :
  id ∈ dom (files w) → id ∉ Rollup.loaded st →
  (unloaded w {| Rollup.modules := Rollup.modules st;
                 Rollup.loaded := id :: Rollup.loaded st;
                 Rollup.calls := Rollup.calls st |} < unloaded w st)%nat.
Proof.
  intros Hd Hn. unfold unloaded. simpl. apply subset_size.
  split.
  - intros x. rewrite !elem_of_difference, !elem_of_union, !elem_of_list_to_set.
    intros [Hx Hl]. split; [exact Hx|]. intros Hl'. apply Hl. by right.
  - intros H. specialize (H id).
    rewrite !elem_of_difference, !elem_of_union, !elem_of_list_to_set in H.
    rewrite elem_of_singleton in H.
    destruct H as [_ H]; [by split|]. apply H. by left.
Qed.

Lemma fetchAllDependencies_progresses
    (fetch : string → Rollup.walk → Rollup.result) (fuel : nat) :
  (∀ id st, (unloaded w st < fuel)%nat → progresses st (fetch id st)) →
  ∀ sources id st,
    (unloaded w st < fuel)%nat →
    progresses st (Rollup.fetchAllDependencies o fetch id sources st).
Proof.
  intros Hfetch sources id.
  induction sources as [|source rest IH]; intros st Hlt.
  - by simpl.
  - simpl. destruct (Rollup.isExternal o source); [by apply IH|].
    destruct (Rollup.resolveId o source (Some id) (Rollup.modules st))
      as [[resolved|msg] ms]; [|exact I].
    set (st' := {| Rollup.modules := ms; Rollup.loaded := Rollup.loaded st;
                   Rollup.calls := _ |}).
    assert (Hlt' : (unloaded w st' < fuel)%nat) by exact Hlt.
    destruct resolved as [resolvedId|]; [|exact (IH st' Hlt')].
    specialize (Hfetch resolvedId st' Hlt').
    destruct (fetch resolvedId st') as [st''| |]; [|exact I|contradiction].
    simpl in Hfetch.
    assert (Hlt'' : (unloaded w st'' < fuel)%nat).
    { eapply Nat.le_lt_trans; [apply unloaded_mono; exact Hfetch|exact Hlt']. }
    specialize (IH st'' Hlt'').
    destruct (Rollup.fetchAllDependencies o fetch id rest st''); simpl in *;
      [|done|done].
    etrans; [exact Hfetch|exact IH].
Qed.

Lemma fetchModule_fuel (fuel : nat) :
  ∀ id st, (unloaded w st < fuel)%nat →
           progresses st (Rollup.fetchModule w o fuel id st).
Proof.
  induction fuel as [|fuel IH]; intros id st Hlt; [lia|].
  simpl. case_bool_decide as Hin; [by simpl|].
  destruct (Rollup.load w id) as [sources|] eqn:Hload; [|exact I].
  pose proof (unloaded_mark id st (load_dom _ _ Hload) Hin) as Hmark.
  set (st1 := {| Rollup.modules := _; Rollup.loaded := id :: _;
                 Rollup.calls := _ |}) in *.
  pose proof (fetchAllDependencies_progresses _ fuel IH sources id st1) as Hall.
  destruct (Rollup.fetchAllDependencies o _ id sources st1); simpl in *.
  - etrans; [|apply Hall; lia]. intros x Hx. by apply elem_of_cons; right.
  - exact I.
  - apply Hall. lia.
Qed.

(** The walk is total: the fuel handed out by [run] is never used up, so
    [rollup] either returns the recorded modules or rejects with the
    bundler's own error. *)
Lemma run_total (modules0 : list string) :
  Rollup.run w o modules0 ≠ Rollup.OutOfFuel.
Proof.
  unfold Rollup.run.
  destruct (Rollup.resolveId o (Rollup.entry o) None modules0)
    as [[[id|]|msg] ms]; try discriminate.
  intros H.
  pose proof (fetchModule_fuel (S (size (files w))) id
                {| Rollup.modules := ms; Rollup.loaded := [];
                   Rollup.calls := [] |}) as Hp.
  rewrite H in Hp. apply Hp.
  unfold unloaded. simpl. rewrite difference_empty_L, size_dom. lia.
Qed.

(** A property that survives loading a module and consulting the hook for
    a specifier that is not external survives the walk. *)
Section invariant.
Context (P : Rollup.walk → Prop).
Hypothesis P_load : ∀ id st,
  P st →
  P {| Rollup.modules := Rollup.modules st;
       Rollup.loaded := id :: Rollup.loaded st;
       Rollup.calls := Rollup.calls st |}.
Hypothesis P_resolve : ∀ source id st resolved ms,
  Rollup.isExternal o source = false →
  Rollup.resolveId o source (Some id) (Rollup.modules st) = (Ret resolved, ms) →
  P st →
  P {| Rollup.modules := ms; Rollup.loaded := Rollup.loaded st;
       Rollup.calls := (Rollup.calls st ++ [(source, id)])%list |}.

Lemma fetchAllDependencies_invariant
    (fetch : string → Rollup.walk → Rollup.result) :
  (∀ id st st', P st → fetch id st = Rollup.Finished st' → P st') →
  ∀ sources id st st',
    P st →
    Rollup.fetchAllDependencies o fetch id sources st = Rollup.Finished st' →
    P st'.
Proof.
  intros Hfetch sources id.
  induction sources as [|source rest IH]; intros st st' HP; simpl.
  - intros [= <-]. exact HP.
  - destruct (Rollup.isExternal o source) eqn:Hext; [by apply IH|].
    destruct (Rollup.resolveId o source (Some id) (Rollup.modules st))
      as [[resolved|msg] ms] eqn:Hres; [|discriminate].
    pose proof (P_resolve _ _ _ _ _ Hext Hres HP) as HP'.
    destruct resolved as [resolvedId|]; [|by apply IH].
    destruct (fetch resolvedId _) as [st''| |] eqn:Hf; try discriminate.
    apply IH. eapply Hfetch; [exact HP'|exact Hf].
Qed.

Lemma fetchModule_invariant (fuel : nat) :
  ∀ id st st',
    P st → Rollup.fetchModule w o fuel id st = Rollup.Finished st' → P st'.
Proof.
  induction fuel as [|fuel IH]; intros id st st' HP; simpl; [discriminate|].
  case_bool_decide; [by intros [= <-]|].
  destruct (Rollup.load w id) as [sources|]; [|discriminate].
  apply fetchAllDependencies_invariant; [exact IH|]. by apply P_load.
Qed.
End invariant.
End walk.

(** ** The hook *)

(** A call of the hook leaves the array alone or pushes one module, and what
    it pushes does not depend on the array. *)
Lemma resolveId_push (w : World) (ip importee : string)
    (importer : option string) (ms ms' : list string) (r : option string) :
  resolveId w ip importee importer ms = (Ret r, ms') →
  ms' = ms ∨
  ∃ m p, ms' = (ms ++ [m])%list ∧
         resolveId w ip importee importer [] = (Ret (Some p), [m]).
Proof.
  unfold resolveId, bind, modify, ret, throw.
  destruct importer as [[|c importer]|].
  - intros [= <- <-]. right. eauto.
  - destruct (Amd.moduleResolve importee _) as [resolved|msg]; [|discriminate].
    destruct (FS.existsSync w _).
    + intros [= <- <-]. right. eauto.
    + intros [= <- <-]. by left.
  - intros [= <- <-]. right. eauto.
Qed.

Lemma provenance_walk (w : World) (this : Funnel) (st : Rollup.walk) :
  Rollup.run w (_getRollupOptions this w) [] = Rollup.Finished st →
  provenance w this st.
Proof.
  unfold Rollup.run.
  change (Rollup.resolveId (_getRollupOptions this w) _ None [])
    with (Ret (Some (Path.join (inputPath this) (entry this))),
          [Str.replace_first (inputPath this) (entry this)]).
  apply (fetchModule_invariant w (_getRollupOptions this w) (provenance w this)).
  - intros id st0 [Hc Hm]. split; [exact Hc|exact Hm].
  - intros source id st0 resolved ms Hext Hres [Hc Hm].
    split; unfold Rollup.modules, Rollup.calls.
    + intros source' importer [Hin|Hin]%elem_of_app.
      * by eapply Hc.
      * apply list_elem_of_singleton in Hin as [= -> ->].
        unfold Rollup.isExternal in Hext. simpl in Hext.
        by apply bool_decide_eq_false in Hext.
    + change (Rollup.resolveId (_getRollupOptions this w))
        with (resolveId w (inputPath this)) in Hres.
      intros m Hin.
      apply resolveId_push in Hres as [->|(m' & p & -> & Hpush)].
      * destruct (Hm m Hin) as [?|(s' & i' & p' & Hin' & Heq)]; [by left|].
        right. exists s', i', p'. split; [|exact Heq].
        apply elem_of_app. by left.
      * apply elem_of_app in Hin as [Hin|Hin].
        -- destruct (Hm m Hin) as [?|(s' & i' & p' & Hin' & Heq)]; [by left|].
           right. exists s', i', p'. split; [|exact Heq].
           apply elem_of_app. by left.
        -- apply list_elem_of_singleton in Hin as ->.
           right. exists source, id, p. split; [|exact Hpush].
           apply elem_of_app. right. by apply list_elem_of_singleton.
  - split; simpl.
    + intros source importer Hin. by apply elem_of_nil in Hin.
    + intros m Hin. left. by apply list_elem_of_singleton in Hin.
Qed.

(** ** The primitives and the scenarios of the test suite, evaluated *)

Example split_example : Str.split "utils/foo.js" = ["utils"; "foo.js"].
Proof. reflexivity. Qed.

Example replace_first_example :
  Str.replace_first "tmp/in" "tmp/in/utils/derp" = "/utils/derp".
Proof. reflexivity. Qed.

Example join_example :
  Path.join "tmp/in" "utils/../routes.js" = "tmp/in/routes.js".
Proof. reflexivity. Qed.

Example join_absolute_example : Path.join "app" "/routes.js" = "app/routes.js".
Proof. reflexivity. Qed.

Example ancestors_example :
  Path.ancestors "out/utils/foo.js" = ["out"; "out/utils"].
Proof. reflexivity. Qed.

Example moduleResolve_relative :
  Amd.moduleResolve "./derp" "tmp/in/utils/foo.js" = Ret "tmp/in/utils/derp".
Proof. reflexivity. Qed.

Example moduleResolve_global :
  Amd.moduleResolve "utils/foo" "tmp/in/routes.js" = Ret "utils/foo".
Proof. reflexivity. Qed.

Example constructor_fixture :
  constructor "tmp/in" "tmp/out"
    {| opt_include := js_true; opt_exclude := js_undefined;
       opt_entry := "routes.js";
       opt_external := Some ["ember-engines/routes"] |}
  = Ret (Fixture.funnel true).
Proof. reflexivity. Qed.

Example include_scenario :
  (build (Fixture.start true)).1 = Ret tt ∧
  Fixture.output (Fixture.built true)
  = ["routes.js"; "utils"; "utils/derp.js"; "utils/foo.js"].
Proof. split; vm_compute; reflexivity. Qed.

Example exclude_scenario :
  (build (Fixture.start false)).1 = Ret tt ∧
  Fixture.output (Fixture.built false) = ["engine.js"; "utils"; "utils/herp.js"].
Proof. split; vm_compute; reflexivity. Qed.

Example graph_edit_scenario :
  let s := Fixture.write "tmp/in/routes.js" (Fixture.file 3 ["utils/herp"])
             (Fixture.tick (Fixture.built true)) in
  Fixture.output (build s).2 = ["routes.js"; "utils"; "utils/herp.js"].
Proof. vm_compute; reflexivity. Qed.

(** * The claims *)




(** On booleans the test is the logical one; a number that is a multiple of
    2^32 is truthy and counts as 0. *)
Example constructor_on_other_values :
  let options include exclude :=
    {| opt_include := include; opt_exclude := exclude;
       opt_entry := "routes.js";
       opt_external := Some ["ember-engines/routes"] |} in
  constructor "tmp/in" "tmp/out" (options js_false js_true)
  = Ret (Fixture.funnel false) ∧
  constructor "tmp/in" "tmp/out" (options js_true js_true)
  = Throw "Must specify exactly one of `include` or `exclude`." ∧
  constructor "tmp/in" "tmp/out" (options js_false js_undefined)
  = Throw "Must specify exactly one of `include` or `exclude`." ∧
  constructor "tmp/in" "tmp/out" (options (js_number 4294967296) js_undefined)
  = Throw "Must specify exactly one of `include` or `exclude`.".
Proof. repeat split. Qed.

(** C2. With a cached graph, when neither the dependency-graph diff nor the
    complement diff has an operation, [build] returns normally and leaves the
    whole state, and so every path, stat record and mtime of the output
    directory, exactly as it was. *)
Theorem unchanged_rebuild_is_noop (s : state) (dg ndg : list string)
    (t nt : FSTree.t) :
  _depGraph (self s) = Some dg →
  _depGraphTree (self s) = Some t →
  _nonDepGraph (self s) = Some ndg →
  _nonDepGraphTree (self s) = Some nt →
  diff (self s) (world s) t dg = Ret [] →
  diff (self s) (world s) nt ndg = Ret [] →
  build s = (Ret tt, s).
Proof.
  intros Hdg Ht Hndg Hnt Hp Hnp.
  rewrite build_fast_path by (apply depGraphUnchanged_true; eauto).
  unfold _buildNonDepGraphChanges, diff in *. rewrite Hndg, Hnt.
  destruct (_getFSTree _ _ ndg) as [incoming|msg]; [|discriminate].
  by injection Hnp as ->.
Qed.

Lemma unchanged_rebuild_is_noop_witness :
  build (Fixture.tick (Fixture.built false))
  = (Ret tt, Fixture.tick (Fixture.built false)).
Proof.
  apply (unchanged_rebuild_is_noop (Fixture.tick (Fixture.built false))
           (Scenario.graph (Fixture.built false))
           (Scenario.complement (Fixture.built false))
           (Scenario.graphTree (Fixture.built false))
           (Scenario.complementTree (Fixture.built false)));
    vm_compute; reflexivity.
Defined.

(** C4. In include mode, when the dependency-graph diff has no operation,
    [build] leaves the whole state as it was, whatever happened to the files
    outside the graph: nothing is written to, removed from or wiped in the
    output directory. *)
Theorem include_ignores_complement_changes (s : state) (dg : list string)
    (t : FSTree.t) :
  include (self s) = true →
  _depGraph (self s) = Some dg →
  _depGraphTree (self s) = Some t →
  diff (self s) (world s) t dg = Ret [] →
  (build s).2 = s.
Proof.
  intros Hinc Hdg Ht Hp.
  rewrite build_fast_path by (apply depGraphUnchanged_true; eauto).
  unfold _buildNonDepGraphChanges.
  destruct (_nonDepGraph (self s)) as [ndg|]; [|reflexivity].
  destruct (_getFSTree _ _ ndg) as [incoming|msg]; [|reflexivity].
  destruct (_nonDepGraphTree (self s)) as [nt|]; [|reflexivity].
  destruct (negb (nonEmpty _)); [reflexivity|].
  rewrite Hinc. reflexivity.
Qed.

Lemma include_ignores_complement_changes_witness :
  (build (Scenario.engine_edited true)).2 = Scenario.engine_edited true.
Proof.
  apply (include_ignores_complement_changes (Scenario.engine_edited true)
           (Scenario.graph (Fixture.built true))
           (Scenario.graphTree (Fixture.built true)));
    vm_compute; reflexivity.
Defined.

(** The witness is not a trivial one: the complement diff is not empty. *)
Example engine_edited_complement_diff :
  let s := Scenario.engine_edited true in
  diff (self s) (world s) (Scenario.complementTree s) (Scenario.complement s)
  = Ret [(FSTree.change, "engine.js",
          {| FSTree.relativePath := "engine.js"; FSTree.e_mode := 33188;
             FSTree.e_size := 64; FSTree.e_mtime := 3 |})].
Proof. vm_compute. reflexivity. Qed.

(** On a differential update (the cached graph is unchanged), in both modes
    and whatever the outcome, [build] assigns none of the fields of the
    instance. *)
Lemma fast_path_assigns_nothing (s : state) :
  depGraphUnchanged s = Ret true →
  self (build s).2 = self s.
Proof.
  intros H. rewrite build_fast_path by exact H.
  apply _buildNonDepGraphChanges_self.
Qed.

(** C8. The code does not do what the claim says. In exclude mode
    [engine.js] is rewritten after the first build: the build is a
    differential update and patches the output, but the cached complement
    snapshot stays the one of the first build, and the next diff is the same
    again. [engine.js] is then deleted: the next build removes it from the
    output, and the build after that, on an unchanged disk, tries to remove
    it once more and throws. *)
Lemma complement_snapshot_not_refreshed :
  let s := Scenario.engine_edited false in
  let s1 := (build s).2 in
  let s2 := (build (Fixture.remove "tmp/in/engine.js" (Fixture.tick s1))).2 in
  let edit := [(FSTree.change, "engine.js",
                {| FSTree.relativePath := "engine.js"; FSTree.e_mode := 33188;
                   FSTree.e_size := 64; FSTree.e_mtime := 3 |})] in
  depGraphUnchanged s = Ret true ∧
  diff (self s) (world s) (Scenario.complementTree s) (Scenario.complement s)
  = Ret edit ∧
  (build s).1 = Ret tt ∧
  _nonDepGraphTree (self s1) = _nonDepGraphTree (self s) ∧
  diff (self s1) (world s1) (Scenario.complementTree s1)
    (Scenario.complement s1) = Ret edit ∧
  Fixture.output s2 = ["utils"; "utils/herp.js"] ∧
  (build (Fixture.tick s2)).1 = Throw "ENOENT".
Proof. repeat split; vm_compute; reflexivity. Qed.

(** C7. The code does not do what the claim says. On a diamond,
    [utils/derp.js] is imported by [routes.js] and by [utils/foo.js]; the
    hook pushes it once per import, [sort] keeps both, the cached set holds
    it twice, and [FSTree.fromEntries] (line 155) rejects the duplicate: the
    build throws. *)
Lemma depGraph_duplicates :
  Rollup.rollup (world Scenario.diamond)
    (_getRollupOptions (self Scenario.diamond) (world Scenario.diamond)) []
  = Ret ["routes.js"; "utils/foo.js"; "utils/derp.js"; "utils/derp.js"] ∧
  _depGraph (self (build Scenario.diamond).2)
  = Some ["routes.js"; "utils/derp.js"; "utils/derp.js"; "utils/foo.js"] ∧
  ¬ NoDup ["routes.js"; "utils/derp.js"; "utils/derp.js"; "utils/foo.js"] ∧
  (build Scenario.diamond).1
  = Throw "Ensure your input is sorted and has no duplicate paths".
Proof.
  split; [evaluate|]. split; [evaluate|].
  split; [decide_by_evaluation|evaluate].
Qed.

(** C1, as the code has it. A build that recomputes (no usable cached graph,
    entry present, walk finished) caches two sets that are disjoint; the
    complement holds only files below the root, and every file that is below
    the input root when the build starts is in exactly one of the two. *)
Theorem recompute_partitions_root (s : state) (modules : list string) :
  depGraphUnchanged s = Ret false →
  FS.existsSync (world s) (Path.join (inputPath (self s)) (entry (self s))) = true →
  Rollup.rollup (world s) (_getRollupOptions (self s) (world s)) [] = Ret modules →
  ∃ D C,
    _depGraph (self (build s).2) = Some D ∧
    _nonDepGraph (self (build s).2) = Some C ∧
    (∀ p, p ∈ D → p ∈ C → False) ∧
    (∀ p, p ∈ C → file_under_root (world s) (inputPath (self s)) p) ∧
    (∀ p, file_under_root (world s) (inputPath (self s)) p →
          (p ∈ D ∧ (p ∉ C)) ∨ ((p ∉ D) ∧ p ∈ C)).
Proof.
  intros H1 H2 H3. rewrite (build_recompute s modules H1 H2 H3).
  destruct (_copyDepGraph_spec modules s) as (_ & _ & Hdg & Hndg & _).
  exists (sort modules), (complementOf s modules).
  split; [exact Hdg|]. split; [exact Hndg|]. split; [|split].
  - intros p HD HC. rewrite elem_of_sort in HD.
    apply complementOf_spec in HC as [HC _]. exact (HC HD).
  - intros p HC. by apply complementOf_spec in HC as [_ HC].
  - intros p Hp. destruct (decide (p ∈ modules)) as [Hin|Hout].
    + left. split; [by rewrite elem_of_sort|].
      intros HC. apply complementOf_spec in HC as [HC _]. exact (HC Hin).
    + right. split; [by rewrite elem_of_sort|]. by apply complementOf_spec.
Qed.

Lemma recompute_partitions_root_witness :
  ∃ D C,
    _depGraph (self (build (Fixture.start true)).2) = Some D ∧
    _nonDepGraph (self (build (Fixture.start true)).2) = Some C ∧
    (∀ p, p ∈ D → p ∈ C → False) ∧
    (∀ p, p ∈ C → file_under_root Fixture.world0 "tmp/in" p) ∧
    (∀ p, file_under_root Fixture.world0 "tmp/in" p →
          (p ∈ D ∧ (p ∉ C)) ∨ ((p ∉ D) ∧ p ∈ C)).
Proof.
  apply (recompute_partitions_root (Fixture.start true)
           ["routes.js"; "utils/foo.js"; "utils/derp.js"]);
    vm_compute; reflexivity.
Defined.

(** C1 as stated fails once a later build takes the fast path. After the
    first build a file [new.js] is added to the root; the next build finds
    both diffs empty and returns; both sets are still defined, and [new.js],
    a file below the root, is in neither. *)
Lemma partition_stale_after_fast_path :
  let s := Scenario.file_added true in
  let s' := (build s).2 in
  (build s).1 = Ret tt ∧
  _depGraph (self s') = Some ["routes.js"; "utils/derp.js"; "utils/foo.js"] ∧
  _nonDepGraph (self s') = Some ["engine.js"; "utils/herp.js"] ∧
  file_under_root (world s') (inputPath (self s')) "new.js" ∧
  ("new.js" ∉ ["routes.js"; "utils/derp.js"; "utils/foo.js"]) ∧
  ("new.js" ∉ ["engine.js"; "utils/herp.js"]).
Proof.
  split; [evaluate|]. split; [evaluate|]. split; [evaluate|].
  split; [|split; decide_by_evaluation].
  split; [discriminate|]. eexists. split; vm_compute; reflexivity.
Qed.

(** C3, as the code has it. With a cached graph whose diff is not empty, an
    entry that exists and a walk that finishes with [modules], [build] is the
    recomputation. Both cached sets are replaced by the sorted modules and
    their complement, and the disk is the one obtained by wiping the output
    directory and running [_copy] on the set selected by the mode. The build
    returns normally when that copy does and no module was recorded twice.
    When it returns normally, the copy has, and both cached snapshots are
    the snapshots of the new sets on the new disk; the copy helper was
    called for every path of the selected set in turn, so whatever a call
    establishes for its path and later calls keep then holds of every
    selected path. *)
Theorem stale_graph_recomputes (s : state) (dg : list string) (t : FSTree.t)
    (patch : list FSTree.op) (modules : list string) :
  _depGraph (self s) = Some dg →
  _depGraphTree (self s) = Some t →
  diff (self s) (world s) t dg = Ret patch →
  patch ≠ [] →
  FS.existsSync (world s) (Path.join (inputPath (self s)) (entry (self s))) = true →
  Rollup.rollup (world s) (_getRollupOptions (self s) (world s)) [] = Ret modules →
  let r := build s in
  let ip := inputPath (self s) in
  let op := outputPath (self s) in
  _depGraph (self r.2) = Some (sort modules) ∧
  _nonDepGraph (self r.2) = Some (complementOf s modules) ∧
  world r.2 = (copied s modules).2 ∧
  ((copied s modules).1 = Ret tt → NoDup modules → r.1 = Ret tt) ∧
  (r.1 = Ret tt →
   (copied s modules).1 = Ret tt ∧
   (∃ t1 t2,
      _getFSTree (self r.2) (world r.2) (sort modules) = Ret t1 ∧
      _depGraphTree (self r.2) = Some t1 ∧
      _getFSTree (self r.2) (world r.2) (complementOf s modules) = Ret t2 ∧
      _nonDepGraphTree (self r.2) = Some t2) ∧
   ∀ Q : string → World → Prop,
     (∀ m w1 w2, m ∈ toCopyOf s modules →
        copyFile (Path.join ip m) (Path.join op m) w1 = (Ret tt, w2) →
        Q m w2) →
     (∀ m m' w1 w2, m ∈ toCopyOf s modules → m' ∈ toCopyOf s modules →
        Q m w1 →
        copyFile (Path.join ip m') (Path.join op m') w1 = (Ret tt, w2) →
        Q m w2) →
     ∀ m, m ∈ toCopyOf s modules → Q m (world r.2)).
Proof.
  intros Hdg Ht Hd Hp He Hr. simpl.
  rewrite (build_recompute s modules
             (depGraphUnchanged_false s dg t patch Hdg Ht Hd Hp) He Hr).
  destruct (_copyDepGraph_spec modules s) as (Hw & _ & H3 & H4 & _).
  split; [exact H3|]. split; [exact H4|]. split; [exact Hw|].
  split; [apply _copyDepGraph_completes|].
  intros Hok. destruct (_copyDepGraph_Ret modules s Hok) as [Hc Hsnap].
  split; [exact Hc|]. split; [exact Hsnap|].
  intros Q Hest Hkeep. rewrite Hw. unfold copied in *.
  destruct (copy_loop _ _ _ _) as [o w'] eqn:E. simpl in Hc. subst o.
  by apply (copy_loop_each _ _ Q _ _ _ Hest Hkeep E).
Qed.

Lemma stale_graph_recomputes_witness :
  let s := Scenario.graph_edited false in
  let r := build s in
  r.1 = Ret tt ∧
  _depGraph (self r.2) = Some ["routes.js"; "utils/herp.js"] ∧
  _nonDepGraph (self r.2) = Some ["engine.js"; "utils/derp.js"; "utils/foo.js"] ∧
  world r.2 = (copied s ["routes.js"; "utils/herp.js"]).2 ∧
  ∀ m, m ∈ ["engine.js"; "utils/derp.js"; "utils/foo.js"] →
       is_Some (files (world r.2) !! Path.join "tmp/out" m).
Proof.
  intros s r.
  destruct (stale_graph_recomputes s
              (Scenario.graph (Fixture.built false))
              (Scenario.graphTree (Fixture.built false))
              [(FSTree.change, "routes.js",
                {| FSTree.relativePath := "routes.js"; FSTree.e_mode := 33188;
                   FSTree.e_size := 64; FSTree.e_mtime := 3 |})]
              ["routes.js"; "utils/herp.js"])
    as (H1 & H2 & H3 & H4 & H5); [evaluate..|].
  assert (Hok : r.1 = Ret tt).
  { apply H4; [vm_compute; reflexivity|decide_by_evaluation]. }
  destruct (H5 Hok) as (_ & _ & HQ).
  assert (E : toCopyOf s ["routes.js"; "utils/herp.js"]
              = ["engine.js"; "utils/derp.js"; "utils/foo.js"])
    by (vm_compute; reflexivity).
  split; [exact Hok|].
  split; [etrans; [exact H1|vm_compute; reflexivity]|].
  split; [etrans; [exact H2|vm_compute; reflexivity]|].
  split; [exact H3|]. rewrite E in HQ.
  apply (HQ (λ m w, is_Some (files w !! Path.join "tmp/out" m))).
  - intros m w1 w2 _ Hc. by eapply copyFile_Ret_dst.
  - intros m m' w1 w2 _ _ Hm Hc. by eapply copyFile_Ret_keeps.
Defined.

(** C3 as stated fails when the change to the graph is the deletion of the
    entry. The cached graph exists and its diff is not empty, yet the build
    returns with the state untouched: the output directory still holds what
    the previous build put there, and the cached sets and snapshots are the
    old ones. *)
Lemma stale_graph_without_entry_no_recompute :
  let s := Scenario.entry_deleted true in
  _depGraph (self s) = Some ["routes.js"; "utils/derp.js"; "utils/foo.js"] ∧
  diff (self s) (world s) (Scenario.graphTree s) (Scenario.graph s)
  = Ret [(FSTree.unlink, "routes.js",
          {| FSTree.relativePath := "routes.js"; FSTree.e_mode := 33188;
             FSTree.e_size := 64; FSTree.e_mtime := 1 |})] ∧
  build s = (Ret tt, s) ∧
  Fixture.output s = ["routes.js"; "utils"; "utils/derp.js"; "utils/foo.js"].
Proof. repeat split; evaluate. Qed.





(** On a first build the claim's wording is met: include mode leaves the
    output empty and the cache unpopulated, exclude mode fills the output
    with the whole root. *)
Example entry_absent_first_build :
  let s := Scenario.entry_missing true in
  let s' := Scenario.entry_missing false in
  build s = (Ret tt, s) ∧ Fixture.output s = [] ∧
  cache_undefined (self s) = true ∧
  (build s').1 = Ret tt ∧
  Fixture.output (build s').2
  = ["engine.js"; "utils"; "utils/derp.js"; "utils/foo.js"; "utils/herp.js"] ∧
  cache_undefined (self (build s').2) = true.
Proof. repeat split; evaluate. Qed.

(** And the build after that one, with the entry still absent, copies onto
    what the first build left and throws. *)
Example entry_absent_second_build :
  (build (Fixture.tick (build (Scenario.entry_missing false)).2)).1
  = Throw "EEXIST".
Proof. vm_compute. reflexivity. Qed.

(** C6. When the walk started by [build] finishes, no specifier listed in
    [external] was ever handed to the [resolveId] hook, with any importer, so
    none was mapped to a path; and every module in the recorded array is the
    entry's or was pushed by the hook for an import of another specifier.
    Nothing is assumed about the disk: a file of the same name may exist. *)
Theorem external_specifiers_never_resolved (w : World) (this : Funnel)
    (st : Rollup.walk) :
  Rollup.run w (_getRollupOptions this w) [] = Rollup.Finished st →
  ∀ spec, spec ∈ default [] (external this) →
    (∀ importer, (spec, importer) ∉ Rollup.calls st) ∧
    (∀ m, m ∈ Rollup.modules st →
       m = Str.replace_first (inputPath this) (entry this) ∨
       ∃ source importer p,
         source ≠ spec ∧
         (source, importer) ∈ Rollup.calls st ∧
         resolveId w (inputPath this) source (Some importer) []
         = (Ret (Some p), [m])).
Proof.
  intros Hrun spec Hspec.
  destruct (provenance_walk w this st Hrun) as [Hcalls Hmodules]. split.
  - intros importer Hin. exact (Hcalls spec importer Hin Hspec).
  - intros m Hm.
    destruct (Hmodules m Hm) as [?|(source & importer & p & Hin & Hpush)];
      [by left|].
    right. exists source, importer, p. split; [|by split].
    intros ->. exact (Hcalls spec importer Hin Hspec).
Qed.

Lemma external_specifiers_never_resolved_witness :
  (∀ importer,
     ("ember-engines/routes", importer)
     ∉ [("utils/foo", "tmp/in/routes.js"); ("./derp", "tmp/in/utils/foo.js")]) ∧
  (∀ m, m ∈ ["routes.js"; "utils/foo.js"; "utils/derp.js"] →
     m = "routes.js" ∨
     ∃ source importer p,
       source ≠ "ember-engines/routes" ∧
       (source, importer)
       ∈ [("utils/foo", "tmp/in/routes.js"); ("./derp", "tmp/in/utils/foo.js")] ∧
       resolveId (world Scenario.vendored) "tmp/in" source (Some importer) []
       = (Ret (Some p), [m])).
Proof.
  apply (external_specifiers_never_resolved (world Scenario.vendored)
           (self Scenario.vendored)
           {| Rollup.modules := ["routes.js"; "utils/foo.js"; "utils/derp.js"];
              Rollup.loaded := ["tmp/in/utils/derp.js"; "tmp/in/utils/foo.js";
                                "tmp/in/routes.js"];
              Rollup.calls := [("utils/foo", "tmp/in/routes.js");
                               ("./derp", "tmp/in/utils/foo.js")] |}).
  - vm_compute. reflexivity.
  - simpl. apply list_elem_of_singleton. reflexivity.
Defined.

(** The external package exists as a file below the root and is imported by
    the entry: listed in [external] it stays out of the graph and goes to the
    complement; without the option the hook resolves and records it. *)
Example external_with_same_named_file :
  FS.existsSync (world Scenario.vendored) "tmp/in/ember-engines/routes.js" = true ∧
  _depGraph (self (build Scenario.vendored).2)
  = Some ["routes.js"; "utils/derp.js"; "utils/foo.js"] ∧
  _nonDepGraph (self (build Scenario.vendored).2)
  = Some ["ember-engines/routes.js"; "engine.js"; "utils/herp.js"] ∧
  _depGraph (self (build Scenario.vendored_not_external).2)
  = Some ["ember-engines/routes.js"; "routes.js"; "utils/derp.js";
          "utils/foo.js"].
Proof. repeat split; evaluate. Qed.

Lemma constructor_cache_coherent (ip op : string) (o : Options) (this : Funnel) :
  constructor ip op o = Ret this → cache_coherent this = true.
Proof.
  unfold constructor. destruct (Z.eqb _ _); [discriminate|].
  by intros [= <-].
Qed.

(** A recomputation that throws, from an instance without a cache, leaves
    the two sets assigned and the two snapshots undefined. *)
Lemma failed_recomputation_is_partial (modules : list string) (s : state)
    (msg : string) :
  cache_undefined (self s) = true →
  (_copyDepGraph modules s).1 = Throw msg →
  let this := self (_copyDepGraph modules s).2 in
  _depGraph this = Some (sort modules) ∧
  _nonDepGraph this = Some (complementOf s modules) ∧
  _depGraphTree this = None ∧ _nonDepGraphTree this = None.
Proof.
  intros Hu Hfail. simpl.
  assert (Hnone : _depGraphTree (self s) = None ∧ _nonDepGraphTree (self s) = None).
  { unfold cache_undefined in Hu.
    destruct (_depGraph (self s)), (_depGraphTree (self s)),
      (_nonDepGraph (self s)), (_nonDepGraphTree (self s)); done. }
  destruct Hnone as [Hn1 Hn2].
  destruct (_copyDepGraph_spec modules s) as (_ & _ & Hdg & Hndg & H).
  split; [exact Hdg|]. split; [exact Hndg|].
  destruct (copied s modules).1 as [[]|msg'].
  - destruct (_getFSTree _ _ (sort modules)) as [t1|msg'].
    + destruct H as [_ H].
      destruct (complement_snapshot (self s) (copied s modules).2 s modules)
        as [t2 E].
      rewrite E in H. destruct H as [H _]. congruence.
    + destruct H as (_ & -> & ->). done.
  - destruct H as (_ & -> & ->). done.
Qed.

(** C9. The code does not do what the claim says. [_copyDepGraph] assigns
    the two sets first and the two snapshots last, with the wipe, the copy
    and [FSTree.fromEntries] in between, and nothing undoes the assignments
    when one of them throws. On the diamond the first build throws at line
    155: the sets are defined, the snapshots are not. Every later build then
    throws at line 51, on [this._getFSTree(this._depGraph)], whatever the
    disk has become. *)
Lemma failed_recomputation_leaves_partial_cache :
  let s := Scenario.diamond in
  let s' := (build s).2 in
  cache_coherent (self s) = true ∧
  (build s).1 = Throw "Ensure your input is sorted and has no duplicate paths" ∧
  _depGraph (self s')
  = Some ["routes.js"; "utils/derp.js"; "utils/derp.js"; "utils/foo.js"] ∧
  _nonDepGraph (self s') = Some ["engine.js"; "utils/herp.js"] ∧
  _depGraphTree (self s') = None ∧
  _nonDepGraphTree (self s') = None ∧
  cache_coherent (self s') = false ∧
  (build (Fixture.tick s')).1
  = Throw "Ensure your input is sorted and has no duplicate paths" ∧
  (build (on_disk s' Fixture.world0)).1
  = Throw "Ensure your input is sorted and has no duplicate paths".
Proof. repeat split; evaluate. Qed.

(** * Further properties of the code *)

(** ** [_getFSTree] *)

(** X1. [_getFSTree] hands to [FSTree.fromEntries] the listed paths that
    exist under the input root, in the order given: a path whose target is
    missing is dropped, nothing is added. It returns the snapshot of exactly
    those paths when they are strictly increasing, and throws when they are
    not: the array it is given must be sorted and free of duplicates among
    the paths that exist. *)
Theorem getFSTree_lists_existing_paths (this : Funnel) (w : World)
    (paths : list string) :
  let existing :=
    filter (λ p, is_Some (existsStat w (Path.join (inputPath this) p))) paths in
  match _getFSTree this w paths with
  | Ret t =>
      snapshot_paths t = existing ∧
      StronglySorted String.le existing ∧ NoDup existing
  | Throw _ => FSTree.strictly_increasing existing = false
  end.
Proof.
  simpl. destruct (_getFSTree this w paths) as [t|msg] eqn:E.
  - apply getFSTree_Ret in E as [E Hinc]. rewrite <- E.
    split; [reflexivity|]. by apply strictly_increasing_NoDup.
  - unfold _getFSTree, FSTree.fromEntries in E. rewrite getFSTree_paths in E.
    by destruct (FSTree.strictly_increasing _).
Qed.

(** X2. A snapshot depends on the disk only through the stat records of the
    listed paths: two disks that agree on them give the same snapshot,
    whatever else differs (contents, other files, the clock). *)
Theorem getFSTree_only_reads_listed_stats (this : Funnel) (w w' : World)
    (paths : list string) :
  Forall (λ p, FS.stat w (Path.join (inputPath this) p)
               = FS.stat w' (Path.join (inputPath this) p)) paths →
  _getFSTree this w paths = _getFSTree this w' paths.
Proof. apply getFSTree_ext. Qed.

Lemma getFSTree_only_reads_listed_stats_witness :
  _getFSTree (Fixture.funnel true) Fixture.world0 ["routes.js"; "gone.js"]
  = _getFSTree (Fixture.funnel true) (world (Scenario.file_added true))
      ["routes.js"; "gone.js"].
Proof.
  apply (getFSTree_only_reads_listed_stats (Fixture.funnel true) Fixture.world0
           (world (Scenario.file_added true)) ["routes.js"; "gone.js"]).
  repeat constructor; vm_compute; reflexivity.
Defined.

(** X3. Once a recomputation has completed, a later build cannot see any
    change of the disk that leaves the stat records of the cached paths
    (graph and complement) as they were: on such a disk it returns at once
    and changes nothing, in both modes. New files below the root are such a
    change. *)
Theorem build_blind_to_uncached_paths (modules : list string) (s : state)
    (w' : World) :
  (_copyDepGraph modules s).1 = Ret tt →
  Forall (λ p, FS.stat (world (_copyDepGraph modules s).2)
                 (Path.join (inputPath (self s)) p)
               = FS.stat w' (Path.join (inputPath (self s)) p))
    (sort modules ++ complementOf s modules) →
  build (on_disk (_copyDepGraph modules s).2 w')
  = (Ret tt, on_disk (_copyDepGraph modules s).2 w').
Proof.
  intros Hok Hsame. apply Forall_app in Hsame as [HD HC].
  destruct (_copyDepGraph_spec modules s) as (_ & (Hip & _) & Hdg & Hndg & _).
  destruct (_copyDepGraph_Ret modules s Hok)
    as (_ & t1 & t2 & E1 & Ht1 & E2 & Ht2).
  rewrite <- Hip in HD, HC.
  set (s1 := (_copyDepGraph modules s).2) in *.
  rewrite (getFSTree_ext _ _ _ _ HD) in E1.
  rewrite (getFSTree_ext _ _ _ _ HC) in E2.
  rewrite build_fast_path.
  - unfold _buildNonDepGraphChanges, on_disk. simpl. rewrite Hndg, E2, Ht2.
    by rewrite calculatePatch_refl.
  - apply depGraphUnchanged_true. exists (sort modules), t1.
    split; [exact Hdg|]. split; [exact Ht1|]. unfold diff, on_disk. simpl.
    by rewrite E1, calculatePatch_refl.
Qed.

Lemma build_blind_to_uncached_paths_witness :
  build (on_disk (_copyDepGraph ["routes.js"; "utils/foo.js"; "utils/derp.js"]
                    (Fixture.start false)).2
           (world (Scenario.file_added false)))
  = (Ret tt,
     on_disk (_copyDepGraph ["routes.js"; "utils/foo.js"; "utils/derp.js"]
                (Fixture.start false)).2
       (world (Scenario.file_added false))).
Proof.
  apply (build_blind_to_uncached_paths
           ["routes.js"; "utils/foo.js"; "utils/derp.js"] (Fixture.start false)
           (world (Scenario.file_added false))).
  - vm_compute. reflexivity.
  - vm_compute. repeat constructor.
Defined.

(** ** [build] as a whole *)

Lemma include_build_cases (s : state) :
  include (self s) = true →
  (build s).1 = Ret tt →
  build s = (Ret tt, s) ∨ ∃ modules, build s = _copyDepGraph modules s.
Proof.
  intros Hinc. unfold build.
  destruct (depGraphUnchanged s) as [[]|msg]; [| |discriminate].
  - unfold _buildNonDepGraphChanges.
    destruct (_nonDepGraph (self s)) as [ndg|]; [|discriminate].
    destruct (_getFSTree _ _ ndg) as [incoming|msg]; [|discriminate].
    destruct (_nonDepGraphTree (self s)) as [nt|]; [|discriminate].
    rewrite Hinc. intros _. left. by destruct (negb (nonEmpty _)).
  - destruct (negb (FS.existsSync _ _)).
    + rewrite Hinc. by left.
    + destruct (Rollup.rollup _ _ _) as [modules|msg]; [|discriminate].
      intros _. right. by exists modules.
Qed.

(** X4. In include mode a build that returned normally has reached a fixed
    point: building again on the disk it left, with no change in between,
    returns normally and changes nothing, whichever branch the first build
    took. *)
Theorem include_build_idempotent (s : state) :
  include (self s) = true →
  (build s).1 = Ret tt →
  build (build s).2 = (Ret tt, (build s).2).
Proof.
  intros Hinc Hok.
  destruct (include_build_cases s Hinc Hok) as [Hb|[modules Hb]].
  - rewrite Hb. simpl. exact Hb.
  - rewrite Hb in Hok |- *. by apply rebuild_after_recompute_is_noop.
Qed.

Lemma include_build_idempotent_witness :
  build (build (Scenario.engine_edited true)).2
  = (Ret tt, (build (Scenario.engine_edited true)).2).
Proof.
  apply (include_build_idempotent (Scenario.engine_edited true));
    vm_compute; reflexivity.
Defined.

(** X5. No build, whatever its outcome, changes the configuration of the
    instance: input and output path, mode, entry and external list stay as
    the constructor set them. *)
Theorem build_keeps_configuration (s : state) :
  same_configuration (self (build s).2) (self s).
Proof.
  assert (Hrefl : ∀ this, same_configuration this this) by (by repeat split).
  unfold build.
  destruct (depGraphUnchanged s) as [[]|msg]; [| |apply Hrefl].
  - rewrite _buildNonDepGraphChanges_self. apply Hrefl.
  - destruct (negb (FS.existsSync _ _)).
    + destruct (negb (include (self s))); [|apply Hrefl].
      destruct (FS.readdirSync _ _) as [modules|msg]; [|apply Hrefl].
      rewrite _copy_self. apply Hrefl.
    + destruct (Rollup.rollup _ _ _) as [modules|msg]; [|apply Hrefl].
      apply _copyDepGraph_spec.
Qed.

(** X6. The cached fields are assigned by a recomputation and by nothing
    else: either a build leaves every field of the instance as it was, or it
    went down the resolution path, the walk finished, and the build is
    [_copyDepGraph] on the recorded modules. *)
Theorem cache_assigned_only_by_recomputation (s : state) :
  self (build s).2 = self s ∨
  ∃ modules,
    depGraphUnchanged s = Ret false ∧
    FS.existsSync (world s) (Path.join (inputPath (self s)) (entry (self s))) = true ∧
    Rollup.rollup (world s) (_getRollupOptions (self s) (world s)) [] = Ret modules ∧
    build s = _copyDepGraph modules s.
Proof.
  unfold build.
  destruct (depGraphUnchanged s) as [[]|msg]; [| |by left].
  - left. apply _buildNonDepGraphChanges_self.
  - destruct (FS.existsSync _ _) eqn:Hentry; simpl.
    + destruct (Rollup.rollup _ _ _) as [modules|msg] eqn:Hwalk; [|by left].
      right. by exists modules.
    + left. destruct (negb (include (self s))); [|reflexivity].
      destruct (FS.readdirSync _ _) as [modules|msg]; [|reflexivity].
      apply _copy_self.
Qed.

(** X7. The constructor keeps the mode in [include] alone: on an instance it
    returns, [include] holds exactly when the [include] option was truthy,
    the cache is empty, and entry and external list are the options given.
    When the two options are each [undefined], a boolean or another falsy
    value, [include] holds exactly when the [exclude] option was not set. *)
Theorem constructor_mode (ip op : string) (o : Options) (this : Funnel) :
  constructor ip op o = Ret this →
  include this = truthy (opt_include o) ∧
  cache_undefined this = true ∧
  entry this = opt_entry o ∧ external this = opt_external o ∧
  (boolean_like (opt_include o) = true →
   boolean_like (opt_exclude o) = true →
   include this = negb (truthy (opt_exclude o))).
Proof.
  unfold constructor. destruct (Z.eqb _ _) eqn:E; [discriminate|].
  intros [= <-]. simpl. repeat split.
  destruct (opt_include o) as [|n], (opt_exclude o) as [|n']; simpl in *;
    try done.
  intros ->%Z.eqb_eq ->%Z.eqb_eq. done.
Qed.

Lemma constructor_mode_witness :
  include (Fixture.funnel false) = truthy js_undefined ∧
  cache_undefined (Fixture.funnel false) = true ∧
  entry (Fixture.funnel false) = "routes.js" ∧
  external (Fixture.funnel false) = Some ["ember-engines/routes"] ∧
  (boolean_like js_undefined = true →
   boolean_like js_true = true →
   include (Fixture.funnel false) = negb (truthy js_true)).
Proof.
  apply (constructor_mode "tmp/in" "tmp/out"
           {| opt_include := js_undefined; opt_exclude := js_true;
              opt_entry := "routes.js";
              opt_external := Some ["ember-engines/routes"] |}
           (Fixture.funnel false)).
  reflexivity.
Defined.

(** ** [_copyDepGraph] and [_copy] *)

(** X8. When a first recomputation throws, in the copy or in
    [FSTree.fromEntries], the instance is left with a graph and no snapshot,
    and from then on every build throws before writing anything, whatever
    the disk has become: at line 51 when the cached graph still has no
    snapshot, at line 52 on the undefined snapshot otherwise. The instance
    does not recover. *)
Theorem failed_first_recomputation_breaks_instance (modules : list string)
    (s : state) (msg : string) (w' : World) :
  cache_undefined (self s) = true →
  (_copyDepGraph modules s).1 = Throw msg →
  ∃ msg',
    build (on_disk (_copyDepGraph modules s).2 w')
    = (Throw msg', on_disk (_copyDepGraph modules s).2 w').
Proof.
  intros Hu Hfail.
  destruct (failed_recomputation_is_partial modules s msg Hu Hfail)
    as (Hdg & _ & Ht & _).
  unfold build, depGraphUnchanged, on_disk. simpl. rewrite Hdg, Ht.
  destruct (_getFSTree _ w' (sort modules)) as [t|msg']; eauto.
Qed.

Lemma failed_first_recomputation_breaks_instance_witness :
  ∃ msg',
    build (on_disk (_copyDepGraph
                      ["routes.js"; "utils/foo.js"; "utils/derp.js";
                       "utils/derp.js"] Scenario.diamond).2 Fixture.world0)
    = (Throw msg',
       on_disk (_copyDepGraph
                  ["routes.js"; "utils/foo.js"; "utils/derp.js";
                   "utils/derp.js"] Scenario.diamond).2 Fixture.world0).
Proof.
  apply (failed_first_recomputation_breaks_instance
           ["routes.js"; "utils/foo.js"; "utils/derp.js"; "utils/derp.js"]
           Scenario.diamond
           "Ensure your input is sorted and has no duplicate paths"
           Fixture.world0);
    vm_compute; reflexivity.
Defined.

(** X9. When the set selected by the mode is empty, a recomputation removes
    the output directory and creates nothing in its place: the disk is the
    old one without the output directory and what was below it, the output
    path is gone, and the recomputation returns normally when no module was
    recorded twice. *)
Theorem empty_selection_removes_output (modules : list string) (s : state) :
  toCopyOf s modules = [] →
  world (_copyDepGraph modules s).2 = FS.rimraf (outputPath (self s)) (world s) ∧
  files (world (_copyDepGraph modules s).2) !! outputPath (self s) = None ∧
  (NoDup modules → (_copyDepGraph modules s).1 = Ret tt).
Proof.
  intros Hempty.
  destruct (_copyDepGraph_spec modules s) as (Hw & _).
  assert (Hc : copied s modules
               = (Ret tt, FS.rimraf (outputPath (self s)) (world s))).
  { unfold copied. by rewrite Hempty. }
  rewrite Hc in Hw. simpl in Hw.
  split; [exact Hw|]. split.
  - rewrite Hw, rimraf_inside. by rewrite inside_refl.
  - apply _copyDepGraph_completes. by rewrite Hc.
Qed.

Lemma empty_selection_removes_output_witness :
  world (_copyDepGraph ["routes.js"] (lonely false)).2
  = FS.rimraf "tmp/out" (world (lonely false)) ∧
  files (world (_copyDepGraph ["routes.js"] (lonely false)).2) !! "tmp/out"
  = None ∧
  (NoDup ["routes.js"] →
   (_copyDepGraph ["routes.js"] (lonely false)).1 = Ret tt).
Proof.
  apply (empty_selection_removes_output ["routes.js"] (lonely false)).
  vm_compute. reflexivity.
Defined.

(** The whole build of that tree in exclude mode ends without an output
    directory. *)
Example lonely_exclude_build :
  (build (lonely false)).1 = Ret tt ∧
  files (world (build (lonely false)).2) !! "tmp/out" = None.
Proof. split; vm_compute; reflexivity. Qed.

Lemma copy_loop_app (ip op : string) (l1 l2 : list string) (w : World) :
  copy_loop ip op (l1 ++ l2) w
  = (copy_loop ip op l1 ;; copy_loop ip op l2)%js w.
Proof.
  revert w. induction l1 as [|module l1 IH]; intros w; [reflexivity|].
  simpl. unfold bind in *.
  destruct (copyFile _ _ w) as [[[]|msg] w1]; [apply IH|reflexivity].
Qed.

(** X10. [_copy] copies in order and stops at the first failure: copying a
    concatenation is copying its first part and, only if that returned
    normally, its second part on the disk the first part left. *)
Theorem copy_app_sequential (l1 l2 : list string) (s : state) :
  _copy (l1 ++ l2) s = (_copy l1 ;; _copy l2)%js s.
Proof.
  unfold _copy, onWorld, bind. rewrite copy_loop_app. unfold bind.
  destruct (copy_loop _ _ l1 (world s)) as [[[]|msg] w1]; simpl; reflexivity.
Qed.

(** X17. A recomputation whose copy returns, with the input and the output
    directory apart and the selected paths in normal form, leaves the input
    tree as it was, puts at the output path of every selected path the inode
    that path has in the input, and leaves nothing in the output directory
    but the copied paths, the directories above them and what is below
    them. *)
Theorem recompute_output_is_selection (modules : list string) (s : state) :
  let ip := inputPath (self s) in
  let op := outputPath (self s) in
  let w' := world (_copyDepGraph modules s).2 in
  apart ip op = true →
  Forall (plain ip op) (toCopyOf s modules) →
  (copied s modules).1 = Ret tt →
  (∀ k, inside ip k = true → files w' !! k = files (world s) !! k) ∧
  (∀ m, m ∈ toCopyOf s modules →
        is_Some (files (world s) !! (ip +:+ "/" +:+ m)) ∧
        files w' !! (op +:+ "/" +:+ m) = files (world s) !! (ip +:+ "/" +:+ m)) ∧
  (∀ k, inside op k = true → is_Some (files w' !! k) →
        ∃ m, m ∈ toCopyOf s modules ∧
             (inside k (op +:+ "/" +:+ m) = true ∨
              inside (op +:+ "/" +:+ m) k = true)).
Proof.
  simpl. intros Hapart Hplain Hc.
  destruct (_copyDepGraph_spec modules s) as (-> & _).
  unfold copied in *.
  destruct (copy_loop _ _ _ _) as [o w1] eqn:E. simpl in Hc. subst o. simpl.
  apply (copy_loop_effect _ _ Hapart) in E as (Ha & _ & Hm & Hd); [|exact Hplain].
  assert (Hin : ∀ k, inside (inputPath (self s)) k = true →
                     files (FS.rimraf (outputPath (self s)) (world s)) !! k
                     = files (world s) !! k).
  { intros k Hk. rewrite rimraf_inside.
    by rewrite (input_not_output _ _ Hapart k Hk). }
  split; [|split].
  - intros k Hk. by rewrite Ha, Hin.
  - intros m H. destruct (Hm m H) as [Hs Heq].
    rewrite Hin in Hs, Heq by by apply inside_app. by split.
  - intros k Hk Hs. destruct (Hd k Hs) as [H|H]; [|exact H].
    rewrite rimraf_inside, Hk in H. by destruct H.
Qed.

Lemma recompute_output_is_selection_witness :
  let w' := world (_copyDepGraph ["routes.js"; "utils/foo.js"; "utils/derp.js"]
                     (Fixture.start true)).2 in
  (∀ k, inside "tmp/in" k = true →
        files w' !! k = files Fixture.world0 !! k) ∧
  (∀ m, m ∈ ["routes.js"; "utils/derp.js"; "utils/foo.js"] →
        is_Some (files Fixture.world0 !! ("tmp/in" +:+ "/" +:+ m)) ∧
        files w' !! ("tmp/out" +:+ "/" +:+ m)
        = files Fixture.world0 !! ("tmp/in" +:+ "/" +:+ m)) ∧
  (∀ k, inside "tmp/out" k = true → is_Some (files w' !! k) →
        ∃ m, m ∈ ["routes.js"; "utils/derp.js"; "utils/foo.js"] ∧
             (inside k ("tmp/out" +:+ "/" +:+ m) = true ∨
              inside ("tmp/out" +:+ "/" +:+ m) k = true)).
Proof.
  apply (recompute_output_is_selection
           ["routes.js"; "utils/foo.js"; "utils/derp.js"] (Fixture.start true)).
  - vm_compute. reflexivity.
  - repeat constructor.
  - vm_compute. reflexivity.
Defined.

(** X18. The Dependency Graph Set that a recomputation caches is the sorted
    array of the recorded modules: it is ordered by [String.le], it holds
    every recorded path as many times as it was recorded, and it does not
    depend on the order of discovery. *)
Theorem depGraph_sorted_multiset (modules : list string) (s : state) :
  _depGraph (self (_copyDepGraph modules s).2) = Some (sort modules) ∧
  StronglySorted String.le (sort modules) ∧
  sort modules ≡ₚ modules ∧
  ∀ modules', modules' ≡ₚ modules → sort modules' = sort modules.
Proof.
  split; [apply _copyDepGraph_spec|].
  split; [apply sort_sorted|].
  split; [apply sort_permutation|].
  intros modules'. apply sort_order_independent.
Qed.

(** X19. Line 156 never throws, and line 155 throws only on a module that
    was recorded twice: the listing of [filterDirectory] has no path twice,
    so the complement always has a snapshot, and so has the graph when the
    recorded modules are distinct. A recomputation whose copy returns then
    returns. *)
Theorem recomputation_snapshots (modules : list string) (s : state)
    (w : World) :
  (∃ t, _getFSTree (self s) w (complementOf s modules) = Ret t) ∧
  (NoDup modules → ∃ t, _getFSTree (self s) w (sort modules) = Ret t) ∧
  (NoDup modules → (copied s modules).1 = Ret tt →
   (_copyDepGraph modules s).1 = Ret tt).
Proof.
  split; [apply complement_snapshot|]. split; [apply graph_snapshot|].
  intros Hn Hc. by apply _copyDepGraph_completes.
Qed.

Lemma recomputation_snapshots_witness :
  (∃ t, _getFSTree (Fixture.funnel false) Fixture.world0
          (complementOf (Fixture.start false) ["routes.js"; "utils/foo.js"])
        = Ret t) ∧
  (∃ t, _getFSTree (Fixture.funnel false) Fixture.world0
          (sort ["routes.js"; "utils/foo.js"]) = Ret t) ∧
  (_copyDepGraph ["routes.js"; "utils/foo.js"] (Fixture.start false)).1 = Ret tt.
Proof.
  destruct (recomputation_snapshots ["routes.js"; "utils/foo.js"]
              (Fixture.start false) Fixture.world0) as (H1 & H2 & H3).
  assert (Hn : NoDup ["routes.js"; "utils/foo.js"]) by decide_by_evaluation.
  split; [exact H1|]. split; [exact (H2 Hn)|].
  apply (H3 Hn). vm_compute. reflexivity.
Defined.

(** X20. A build that starts with the four cached fields all defined or all
    undefined, as the constructor leaves them, and completes without an
    exception leaves them all defined or all undefined: only [_copyDepGraph]
    assigns them, and when it returns it has assigned all four. *)
Theorem successful_build_keeps_cache_coherent (s : state) :
  cache_coherent (self s) = true →
  (build s).1 = Ret tt →
  cache_coherent (self (build s).2) = true.
Proof.
  intros Hc. unfold build.
  destruct (depGraphUnchanged s) as [[]|msg] eqn:Hfast; [| |discriminate].
  - intros _. by rewrite _buildNonDepGraphChanges_self.
  - destruct (negb (FS.existsSync _ _)).
    + destruct (negb (include (self s))); [|by intros _].
      destruct (FS.readdirSync _ _) as [modules|msg]; [|discriminate].
      intros _. by rewrite _copy_self.
    + destruct (Rollup.rollup _ _ _) as [modules|msg]; [|discriminate].
      intros Hok.
      destruct (_copyDepGraph_spec modules s) as (_ & _ & Hdg & Hndg & _).
      destruct (_copyDepGraph_Ret modules s Hok)
        as (_ & t1 & t2 & _ & Ht & _ & Hnt).
      unfold cache_coherent, cache_defined. by rewrite Hdg, Ht, Hndg, Hnt.
Qed.

Lemma successful_build_keeps_cache_coherent_witness :
  cache_coherent (self (build (Fixture.start false)).2) = true.
Proof.
  apply (successful_build_keeps_cache_coherent (Fixture.start false));
    vm_compute; reflexivity.
Defined.

(** ** The [resolveId] hook *)

(** X12. A specifier that does not start with a dot is a global name: the
    hook never throws on it and resolves it against the input root alone, so
    the answer and the pushed module are the same for every importer. *)
Theorem global_specifier_ignores_importer (w : World) (ip importee i1 i2 : string)
    (ms : list string) :
  Amd.starts_with_dot importee = false →
  i1 ≠ "" → i2 ≠ "" →
  resolveId w ip importee (Some i1) ms = resolveId w ip importee (Some i2) ms ∧
  is_ret (resolveId w ip importee (Some i1) ms).1 = true.
Proof.
  intros Hdot H1 H2. unfold resolveId, Amd.moduleResolve. rewrite Hdot. simpl.
  destruct i1 as [|c1 i1]; [done|]. destruct i2 as [|c2 i2]; [done|].
  split; [reflexivity|].
  unfold bind, modify, ret. by destruct (FS.existsSync w _).
Qed.

Lemma global_specifier_ignores_importer_witness :
  resolveId Fixture.world0 "tmp/in" "utils/derp" (Some "tmp/in/routes.js") []
  = resolveId Fixture.world0 "tmp/in" "utils/derp" (Some "tmp/in/utils/foo.js") [] ∧
  is_ret (resolveId Fixture.world0 "tmp/in" "utils/derp"
            (Some "tmp/in/routes.js") []).1 = true.
Proof.
  apply (global_specifier_ignores_importer Fixture.world0 "tmp/in" "utils/derp"
           "tmp/in/routes.js" "tmp/in/utils/foo.js" []);
    [reflexivity|discriminate|discriminate].
Defined.

(** A relative specifier, by contrast, depends on the importer, and one that
    climbs above the importer's root makes the hook throw. *)
Example relative_specifier_depends_on_importer :
  resolveId Fixture.world0 "tmp/in" "./derp" (Some "tmp/in/utils/foo.js") []
  = (Ret (Some "tmp/in/utils/derp.js"), ["utils/derp.js"]) ∧
  resolveId Fixture.world0 "tmp/in" "./derp" (Some "tmp/in/routes.js") []
  = (Ret None, []) ∧
  resolveId Fixture.world0 "tmp/in" "../x" (Some "a.js") []
  = (Throw "Cannot access parent module of root", []).
Proof. repeat split. Qed.

Lemma replace_first_absent (pat s : string) :
  occurs pat s = false → Str.replace_first pat s = s.
Proof.
  induction s as [|c s IH]; simpl.
  - by destruct (Str.strip_prefix pat "").
  - destruct (Str.strip_prefix pat (String c s)); [discriminate|].
    intros H. by rewrite IH.
Qed.

(** X13. For the entry (no importer) the hook never consults the disk: it
    always resolves, to the join of the input path and the entry, and pushes
    one module; when the input path does not occur in the entry, the module
    it records is the entry as given. *)
Theorem entry_recorded_as_given (w : World) (ip entry : string)
    (ms : list string) :
  occurs ip entry = false →
  resolveId w ip entry None ms
  = (Ret (Some (Path.join ip entry)), (ms ++ [entry])%list).
Proof.
  intros H. unfold resolveId, bind, modify, ret. simpl.
  by rewrite (replace_first_absent _ _ H).
Qed.

Lemma entry_recorded_as_given_witness :
  resolveId Fixture.world0 "tmp/in" "routes.js" None []
  = (Ret (Some (Path.join "tmp/in" "routes.js")), ([] ++ ["routes.js"])%list).
Proof.
  apply (entry_recorded_as_given Fixture.world0 "tmp/in" "routes.js" []).
  reflexivity.
Defined.

(** When the input path does occur in the entry its first occurrence is cut
    out of the recorded name, which then names another path. *)
Example entry_containing_input_path :
  resolveId Fixture.world0 "app" "app/routes.js" None []
  = (Ret (Some "app/app/routes.js"), ["/routes.js"]) ∧
  Path.join "app" "/routes.js" = "app/routes.js".
Proof. split; reflexivity. Qed.

(** ** The differential update *)

Lemma walk_cons_cons (x y : FSTree.Entry) (ours theirs : list FSTree.Entry) :
  FSTree.walk (x :: ours) (y :: theirs) =
  if String.ltb (FSTree.relativePath x) (FSTree.relativePath y) then
    let '(rs, adds) := FSTree.walk ours (y :: theirs) in
    (FSTree.removeOp x :: rs, adds)
  else if String.ltb (FSTree.relativePath y) (FSTree.relativePath x) then
    let '(rs, adds) := FSTree.walk (x :: ours) theirs in
    (rs, FSTree.addOp y :: adds)
  else
    let '(rs, adds) := FSTree.walk ours theirs in
    (rs, if FSTree.isEqual x y then adds else FSTree.updateOp y :: adds).
Proof. reflexivity. Qed.

Lemma patch_paths_fmap_op (f : FSTree.Entry → FSTree.op) (es : list FSTree.Entry) :
  (∀ e, (f e).1.2 = FSTree.relativePath e) →
  patch_paths (f <$> es) = FSTree.relativePath <$> es.
Proof.
  intros Hf. unfold patch_paths. rewrite <- list_fmap_compose.
  apply list_fmap_ext. intros _ e _. apply Hf.
Qed.

Lemma patch_paths_cons (o : FSTree.op) (patch : list FSTree.op) :
  patch_paths (o :: patch) = o.1.2 :: patch_paths patch.
Proof. reflexivity. Qed.

(** Every operation of a diff is on a path of one of the two snapshots. *)
Lemma walk_paths (ours theirs : list FSTree.Entry) (rel : string) :
  rel ∈ patch_paths (FSTree.walk ours theirs).1 ∨
  rel ∈ patch_paths (FSTree.walk ours theirs).2 →
  rel ∈ FSTree.relativePath <$> ours ∨ rel ∈ FSTree.relativePath <$> theirs.
Proof.
  revert theirs. induction ours as [|x ours IHo]; intros theirs.
  - assert (FSTree.walk [] theirs = ([], FSTree.addOp <$> theirs)) as ->
      by by destruct theirs.
    simpl. rewrite (patch_paths_fmap_op FSTree.addOp) by done.
    intros [H|H]; [by apply elem_of_nil in H|by right].
  - induction theirs as [|y theirs IHt].
    + change (FSTree.walk (x :: ours) [])
        with (FSTree.removeOp <$> x :: ours, @nil FSTree.op).
      intros [H|H]; [|by apply elem_of_nil in H].
      left. rewrite <- (patch_paths_fmap_op FSTree.removeOp) by done. exact H.
    + rewrite walk_cons_cons.
      destruct (String.ltb (FSTree.relativePath x) (FSTree.relativePath y)).
      { clear IHt. specialize (IHo (y :: theirs)).
        destruct (FSTree.walk ours (y :: theirs)) as [rs adds].
        simpl fst in *. simpl snd in *.
        rewrite patch_paths_cons, (fmap_cons _ x), !elem_of_cons.
        change ((FSTree.removeOp x).1.2) with (FSTree.relativePath x).
        tauto. }
      destruct (String.ltb (FSTree.relativePath y) (FSTree.relativePath x)).
      { clear IHo.
        destruct (FSTree.walk (x :: ours) theirs) as [rs adds].
        simpl fst in *. simpl snd in *.
        rewrite patch_paths_cons, (fmap_cons _ y), !elem_of_cons.
        change ((FSTree.addOp y).1.2) with (FSTree.relativePath y).
        tauto. }
      clear IHt. specialize (IHo theirs).
      destruct (FSTree.walk ours theirs) as [rs adds].
      simpl fst in *. simpl snd in *.
      rewrite (fmap_cons _ x), (fmap_cons _ y), !elem_of_cons.
      destruct (FSTree.isEqual x y); [tauto|].
      rewrite patch_paths_cons, !elem_of_cons.
      change ((FSTree.updateOp y).1.2) with (FSTree.relativePath y).
      tauto.
Qed.

Lemma calculatePatch_paths (ours theirs : FSTree.t) (rel : string) :
  rel ∈ patch_paths (FSTree.calculatePatch ours theirs) →
  rel ∈ snapshot_paths ours ∨ rel ∈ snapshot_paths theirs.
Proof.
  unfold FSTree.calculatePatch, snapshot_paths. intros H.
  apply walk_paths.
  destruct (FSTree.walk (FSTree.entries ours) (FSTree.entries theirs))
    as [rs adds].
  unfold patch_paths in *. rewrite fmap_app in H.
  apply elem_of_app in H as [H|H]; [left|by right].
  apply list_elem_of_fmap in H as (o & -> & H).
  apply list_elem_of_fmap. exists o. split; [reflexivity|].
  apply list_elem_of_In. apply in_rev. by apply list_elem_of_In.
Qed.

Lemma unlinkSync_frame (p k : string) (w : World) :
  k ≠ p → files (FS.unlinkSync p w).2 !! k = files w !! k.
Proof.
  intros Hne. unfold FS.unlinkSync. destruct (FS.stat w p) as [st|]; [|done].
  destruct (FS.isDirectory st); [done|]. simpl. by rewrite lookup_delete_ne.
Qed.

Lemma rmdirSync_frame (p k : string) (w : World) :
  k ≠ p → files (FS.rmdirSync p w).2 !! k = files w !! k.
Proof.
  intros Hne. unfold FS.rmdirSync. destruct (FS.stat w p) as [st|]; [|done].
  destruct (negb (FS.isDirectory st)); [done|].
  destruct (FS.descendants w p); [|done]. simpl. by rewrite lookup_delete_ne.
Qed.

Lemma mkdirSync_frame (p k : string) (w : World) :
  k ≠ p → files (FS.mkdirSync p w).2 !! k = files w !! k.
Proof.
  intros Hne. unfold FS.mkdirSync. destruct (files w !! p); [done|].
  simpl. by rewrite lookup_insert_ne.
Qed.

Lemma symlinkOrCopySync_frame (src dst k : string) (w : World) :
  k ≠ dst → files (FSTree.symlinkOrCopySync src dst w).2 !! k = files w !! k.
Proof.
  intros Hne. unfold FSTree.symlinkOrCopySync.
  destruct (files w !! src); [|done]. destruct (files w !! dst); [done|].
  simpl. by rewrite lookup_insert_ne.
Qed.

Lemma applyOperation_frame (input output k : string) (o : FSTree.op) (w : World) :
  k ≠ Path.join output o.1.2 →
  files (FSTree.applyOperation input output o w).2 !! k = files w !! k.
Proof.
  destruct o as [[name rel] e]. simpl. intros Hne.
  destruct name; simpl.
  - by apply unlinkSync_frame.
  - by apply rmdirSync_frame.
  - by apply mkdirSync_frame.
  - by apply symlinkOrCopySync_frame.
  - unfold bind.
    pose proof (unlinkSync_frame (Path.join output rel) k w Hne) as H1.
    destruct (FS.unlinkSync (Path.join output rel) w) as [[[]|msg] w1];
      simpl in *; [|exact H1].
    rewrite <- H1. by apply symlinkOrCopySync_frame.
Qed.

Lemma applyPatch_frame (input output k : string) (patch : list FSTree.op)
    (w : World) :
  Forall (λ rel, k ≠ Path.join output rel) (patch_paths patch) →
  files (FSTree.applyPatch input output patch w).2 !! k = files w !! k.
Proof.
  revert w. induction patch as [|o patch IH]; intros w H; [reflexivity|].
  rewrite patch_paths_cons in H. apply Forall_cons in H as [Ho H].
  simpl. unfold bind.
  pose proof (applyOperation_frame input output k o w Ho) as H1.
  destruct (FSTree.applyOperation input output o w) as [[[]|msg] w1];
    simpl in *; [|exact H1].
  rewrite <- H1. by apply IH.
Qed.

(** X15. A differential update (the cached graph is unchanged) touches
    nothing but the output copies of complement paths: a path of the disk
    that is not the join of the output path with a path of the cached
    complement or of its cached snapshot keeps its inode, in both modes and
    whatever the outcome of the build. The input tree is such a path. *)
Theorem differential_update_frame (s : state) (ndg : list string)
    (nt : FSTree.t) (k : string) :
  depGraphUnchanged s = Ret true →
  _nonDepGraph (self s) = Some ndg →
  _nonDepGraphTree (self s) = Some nt →
  Forall (λ rel, k ≠ Path.join (outputPath (self s)) rel)
    (snapshot_paths nt ++ ndg)%list →
  files (world (build s).2) !! k = files (world s) !! k.
Proof.
  intros Hfast Hndg Hnt Hk. rewrite build_fast_path by exact Hfast.
  unfold _buildNonDepGraphChanges. rewrite Hndg.
  destruct (_getFSTree _ _ ndg) as [incoming|msg] eqn:E; [|reflexivity].
  rewrite Hnt.
  destruct (negb (nonEmpty _)); [reflexivity|].
  destruct (negb (include (self s))); [|reflexivity].
  rewrite onWorld_world. apply applyPatch_frame.
  apply Forall_forall. intros rel Hrel.
  rewrite Forall_forall in Hk. apply Hk.
  apply calculatePatch_paths in Hrel as [Hrel|Hrel].
  - apply elem_of_app. by left.
  - apply elem_of_app. right. apply getFSTree_Ret in E as [E _].
    rewrite E in Hrel. by apply list_elem_of_filter in Hrel as [_ Hrel].
Qed.

Lemma differential_update_frame_witness :
  files (world (build (Scenario.engine_edited false)).2) !! "tmp/in/engine.js"
  = files (world (Scenario.engine_edited false)) !! "tmp/in/engine.js".
Proof.
  apply (differential_update_frame (Scenario.engine_edited false)
           (Scenario.complement (Fixture.built false))
           (Scenario.complementTree (Fixture.built false))
           "tmp/in/engine.js").
  - vm_compute. reflexivity.
  - vm_compute. reflexivity.
  - vm_compute. reflexivity.
  - vm_compute. repeat constructor; discriminate.
Defined.
